(** * Progress reporting and include/exclude filtering of [lfs/util.go]

    A shallow embedding of [CallbackReader], [CopyWithCallback],
    [CopyCallbackFile], [wrapProgressError] and
    [FilenamePassesIncludeExcludeFilter], with the properties that the
    specification states about them. *)

From Stdlib Require Import ZArith List String Ascii Bool Lia.
From Stdlib Require Import DecimalString.
From Stdlib Require Import Permutation.
Import ListNotations.

Local Open Scope Z_scope.

(** ** Go values shared by the two components *)

(** Go's [error] interface.  A nil error is [None : option error].  [EOF]
    and [ErrShortWrite] are the sentinels of package [io], compared by
    identity in [io.Copy]; every other error is known by its message. *)
Inductive error : Type :=
| EOF
| ErrShortWrite
| ErrMsg (msg : string).

(** [err.Error()] *)
Definition Error (e : error) : string :=
  match e with
  | EOF => "EOF"
  | ErrShortWrite => "short write"
  | ErrMsg msg => msg
  end.

(** [int64] arithmetic wraps around in two's complement. *)
Definition wrap64 (z : Z) : Z := (z + 2 ^ 63) mod 2 ^ 64 - 2 ^ 63.

Definition int64_range (z : Z) : Prop := - 2 ^ 63 <= z < 2 ^ 63.

(** [%d] of package [fmt]: decimal digits, with a leading minus sign for a
    negative number. *)
Definition fmt_d (z : Z) : string := NilZero.string_of_int (Z.to_int z).

(** * The progress-observing reader *)

Module Progress.

Section Copy.

(** The variables captured by the callback closure, and the state of the
    destination [io.Writer]. *)
Variables CbState WrState : Type.

(** [writer.Write(buf[0:n])], by what it returns for [n] bytes. *)
Variable dst_Write : Z -> WrState -> (Z * option error) * WrState.

(** What one call of [Read] returns: the byte count and the error. *)
Definition ReadResult : Type := (Z * option error)%type.

(** The objects the copy works on.  The embedded [io.Reader] is a
    reference: the reader it points to lives here, as the results of
    the [Read] calls it still has to answer.  A reader that has answered
    them all is at its end and returns [(0, EOF)]. *)
Record World : Type := mkWorld {
  src : list ReadResult;
  cbst : CbState;
  dst : WrState
}.

(** Calls that cross the boundary of the wrapper, in the order in which
    they happen. *)
Inductive Event : Type :=
| EvRead (n : Z) (err : option error)
| EvCallback (totalSize readSoFar readSinceLast : Z)
| EvWrite (n : Z).

(** State passing, with the calls that were made. *)
Definition M (A : Type) : Type := World -> A * World * list Event.

Definition ret {A} (a : A) : M A := fun s => (a, s, []).

Definition bind {A B} (c : M A) (k : A -> M B) : M B :=
  fun s =>
    let '(a, s1, t1) := c s in
    let '(b, s2, t2) := k a s1 in
    (b, s2, t1 ++ t2).

Notation "x <- c ;; k" := (bind c (fun x => k))
  (at level 61, c at next level, right associativity).
Notation "' pat <- c ;; k" := (bind c (fun x => match x with pat => k end))
  (at level 61, pat pattern, c at next level, right associativity).

(** [type CopyCallback func(totalSize int64, readSoFar int64,
    readSinceLast int) error] *)
Definition CopyCallback : Type :=
  Z -> Z -> Z -> CbState -> option error * CbState.

(** [type CallbackReader struct]; the embedded [io.Reader] is [src]. *)
Record CallbackReader : Type := mkCallbackReader {
  C : option CopyCallback;
  TotalSize : Z;
  ReadSize : Z
}.

Definition set_ReadSize (w : CallbackReader) (z : Z) : CallbackReader :=
  {| C := C w; TotalSize := TotalSize w; ReadSize := z |}.

(** [w.Reader.Read(p)] *)
Definition Reader_Read : M ReadResult :=
  fun s =>
    match src s with
    | [] => ((0, Some EOF), s, [EvRead 0 (Some EOF)])
    | (n, err) :: rest =>
        ((n, err), {| src := rest; cbst := cbst s; dst := dst s |},
         [EvRead n err])
    end.

(** [w.C(totalSize, readSoFar, n)] *)
Definition invoke (cb : CopyCallback) (totalSize readSoFar n : Z)
  : M (option error) :=
  fun s =>
    let '(err, c) := cb totalSize readSoFar n (cbst s) in
    (err, {| src := src s; cbst := c; dst := dst s |},
     [EvCallback totalSize readSoFar n]).

(** [writer.Write(buf[0:n])] *)
Definition Writer_Write (n : Z) : M (Z * option error) :=
  fun s =>
    let '(res, d) := dst_Write n (dst s) in
    (res, {| src := src s; cbst := cbst s; dst := d |}, [EvWrite n]).

(** [func (w *CallbackReader) Read(p []byte) (int, error)]; the receiver
    is returned with its new [ReadSize]. *)
Definition Read (w : CallbackReader) : M (ReadResult * CallbackReader) :=
  '(n, err) <- Reader_Read ;;
  let w := if 0 <? n then set_ReadSize w (wrap64 (ReadSize w + n)) else w in
  err <- match err, C w with
         | None, Some cb => invoke cb (TotalSize w) (ReadSize w) n
         | _, _ => ret err
         end ;;
  ret ((n, err), w).

(** The plain reader, read without a wrapper. *)
Definition Plain_Read (r : unit) : M (ReadResult * unit) :=
  res <- Reader_Read ;; ret (res, r).

(** The body of [if nr > 0] in the loop of [io.Copy]: write the bytes
    that were read, count the bytes written, and tell whether the loop
    breaks and with which error. *)
Definition copy_write (nr written : Z) : M (Z * option error) :=
  '(nw, ew) <- Writer_Write nr ;;
  let written := if 0 <? nw then wrap64 (written + nw) else written in
  match ew with
  | Some e => ret (written, Some e)
  | None =>
      if nr =? nw then ret (written, None)
      else ret (written, Some ErrShortWrite)
  end.

(** The loop of [io.Copy] of package [io]: read, write what was read,
    stop at the first error; [EOF] ends the copy without an error.  The
    shortcuts of [io.Copy] through [WriterTo] and [ReaderFrom] are left
    out: a [CallbackReader] has no [WriteTo].  A pass of the loop that
    finds no fuel stands for a copy that has not returned. *)
Fixpoint copy_loop {R : Type} (read : R -> M (ReadResult * R))
    (fuel : nat) (r : R) (written : Z)
  : M (option (Z * option error) * R) :=
  match fuel with
  | O => ret (None, r)
  | S fuel =>
      '((nr, er), r) <- read r ;;
      '(written, stop) <-
        (if 0 <? nr then copy_write nr written else ret (written, None)) ;;
      match stop with
      | Some e => ret (Some (written, Some e), r)
      | None =>
          match er with
          | Some EOF => ret (Some (written, None), r)
          | Some e => ret (Some (written, Some e), r)
          | None => copy_loop read fuel r written
          end
      end
  end.

(** [io.Copy(writer, reader)].  Every pass of the loop takes one answer
    from the reader, so one pass more than it has answers is enough. *)
Definition io_Copy {R : Type} (read : R -> M (ReadResult * R)) (r : R)
  : M (option (Z * option error) * R) :=
  fun s => copy_loop read (S (List.length (src s))) r 0 s.

(** [func CopyWithCallback(writer io.Writer, reader io.Reader,
    totalSize int64, cb CopyCallback) (int64, error)] *)
Definition CopyWithCallback (totalSize : Z) (cb : option CopyCallback)
  : M (option (Z * option error)) :=
  match cb with
  | None => '(res, _) <- io_Copy Plain_Read tt ;; ret res
  | Some cb =>
      let cbReader :=
        {| C := Some cb; TotalSize := totalSize; ReadSize := 0 |} in
      '(res, _) <- io_Copy Read cbReader ;; ret res
  end.

(** What the underlying reader returns to the next call. *)
Definition next_read (s : World) : ReadResult :=
  match src s with
  | [] => (0, Some EOF)
  | r :: _ => r
  end.

(** [n] calls of [Read] one after the other, whatever they return, with
    the results in the order of the calls. *)
Fixpoint read_many (n : nat) (w : CallbackReader)
  : M (list ReadResult * CallbackReader) :=
  match n with
  | O => ret ([], w)
  | S n =>
      '(res, w) <- Read w ;;
      '(rest, w) <- read_many n w ;;
      ret (res :: rest, w)
  end.

End Copy.

Arguments mkWorld {CbState WrState} _ _ _.
Arguments src {CbState WrState} _.
Arguments cbst {CbState WrState} _.
Arguments dst {CbState WrState} _.
Arguments ret {CbState WrState A} _ _.
Arguments bind {CbState WrState A B} _ _ _.
Arguments mkCallbackReader {CbState} _ _ _.
Arguments C {CbState} _.
Arguments TotalSize {CbState} _.
Arguments ReadSize {CbState} _.
Arguments set_ReadSize {CbState} _ _.
Arguments Reader_Read {CbState WrState} _.
Arguments invoke {CbState WrState} _ _ _ _ _.
Arguments Writer_Write {CbState WrState} _ _ _.
Arguments Read {CbState WrState} _ _.
Arguments Plain_Read {CbState WrState} _ _.
Arguments copy_write {CbState WrState} _ _ _ _.
Arguments copy_loop {CbState WrState} _ {R} _ _ _ _ _.
Arguments io_Copy {CbState WrState} _ {R} _ _ _.
Arguments CopyWithCallback {CbState WrState} _ _ _ _.
Arguments read_many {CbState WrState} _ _ _.
Arguments next_read {CbState WrState} _.

(** *** What a trace of calls shows *)

(** The results of the underlying [Read] calls, in call order. *)
Fixpoint reads_of (t : list Event) : list ReadResult :=
  match t with
  | [] => []
  | EvRead n err :: t => (n, err) :: reads_of t
  | _ :: t => reads_of t
  end.

(** The arguments of the callback invocations, in call order. *)
Fixpoint calls_of (t : list Event) : list (Z * Z * Z) :=
  match t with
  | [] => []
  | EvCallback total soFar delta :: t => (total, soFar, delta) :: calls_of t
  | _ :: t => calls_of t
  end.

(** The number of bytes that a sequence of reads returned. *)
Fixpoint sum_bytes (rs : list ReadResult) : Z :=
  match rs with
  | [] => 0
  | (n, _) :: rs => n + sum_bytes rs
  end.

(** One triple [(T, cumulative count including this read, bytes of this
    read)] for every read of the sequence, started from the count [acc]. *)
Fixpoint triples_every_read (T acc : Z) (rs : list ReadResult)
  : list (Z * Z * Z) :=
  match rs with
  | [] => []
  | (n, _) :: rs => (T, acc + n, n) :: triples_every_read T (acc + n) rs
  end.

(** The same, for the reads that returned no error only; the bytes of the
    other reads still count. *)
Fixpoint triples_good_reads (T acc : Z) (rs : list ReadResult)
  : list (Z * Z * Z) :=
  match rs with
  | [] => []
  | (n, None) :: rs => (T, acc + n, n) :: triples_good_reads T (acc + n) rs
  | (n, Some _) :: rs => triples_good_reads T (acc + n) rs
  end.

(** Every read of the sequence returned a count that is not negative, as
    the contract of [io.Reader] asks. *)
Definition counts_nonneg (rs : list ReadResult) : Prop :=
  Forall (fun r => 0 <= fst r) rs.

(** [ReadSize] after a sequence of reads, started from [acc], the way
    [Read] computes it: in [int64], adding the counts above zero. *)
Fixpoint ReadSize_after (acc : Z) (rs : list ReadResult) : Z :=
  match rs with
  | [] => acc
  | (n, _) :: rs =>
      ReadSize_after (if 0 <? n then wrap64 (acc + n) else acc) rs
  end.

(** The callback arguments that a sequence of reads leads to, with the
    counts computed the same way. *)
Fixpoint calls_after (T acc : Z) (rs : list ReadResult) : list (Z * Z * Z) :=
  match rs with
  | [] => []
  | (n, err) :: rs =>
      let acc := if 0 <? n then wrap64 (acc + n) else acc in
      match err with
      | None => (T, acc, n) :: calls_after T acc rs
      | Some _ => calls_after T acc rs
      end
  end.

(** The reads that a copy can issue on a reader with the answers [rs]:
    the answers in their order, then [(0, EOF)] at the end of the input. *)
Definition answers_and_end (rs : list ReadResult) : list ReadResult :=
  rs ++ [(0, Some EOF)].


(** The reads that a copy issued are the first answers of the reader, in
    their order, followed by the answer at the end of the input when the
    copy came that far. *)
Definition issued_from (rs : list ReadResult) (before after : list ReadResult)
  : Prop :=
  rs ++ after = before \/ (after = [] /\ rs = answers_and_end before).

End Progress.

(** * Package [path/filepath] and the operating system

    The functions of Go's library that the file calls.  They depend on the
    platform, so the code is embedded over any implementation of them. *)

Class Filepath : Type := {
  (** [runtime.GOOS] *)
  GOOS : string;
  (** [filepath.Separator] *)
  Separator : ascii;
  (** [filepath.IsAbs(path)] *)
  IsAbs : string -> bool;
  (** [filepath.Dir(path)] *)
  Dir : string -> string;
  (** [filepath.Clean(path)] *)
  Clean : string -> string;
  (** [filepath.Match(pattern, name)] *)
  Match : string -> string -> bool * option error
}.

(** [strings.HasPrefix(s, prefix)] *)
Definition HasPrefix (s prefix : string) : bool := String.prefix prefix s.

(** [len(s)] *)
Definition len (s : string) : Z := Z.of_nat (String.length s).

(** [string(c)] of one byte *)
Definition string_of_byte (c : ascii) : string := String c EmptyString.

(** * The callback that writes the progress log *)

Module ProgressLog.

(** [*os.File], by the name it was opened with. *)
Record File : Type := mkFile { Name : string }.

Inductive OpenFlag : Type := O_WRONLY | O_CREATE | O_APPEND.

(** The calls into the file system, in the order in which they happen. *)
Inductive SysCall : Type :=
| SysMkdirAll (path : string) (perm : Z)
| SysOpenFile (name : string) (flag : list OpenFlag) (perm : Z)
| SysWrite (name : string) (data : string)
| SysSync (name : string).

(** The process environment and the file system.  [answers] holds what the
    calls still to come will return, the next one first, [None] for
    success; with no answer left a call succeeds.  [disk] is the content
    of each file; a write that fails leaves it as it was. *)
Record OS : Type := mkOS {
  environ : string -> string;
  answers : list (option error);
  disk : string -> string
}.

Definition IO (A : Type) : Type := OS -> A * OS * list SysCall.

Definition ret {A} (a : A) : IO A := fun s => (a, s, []).

Definition bind {A B} (c : IO A) (k : A -> IO B) : IO B :=
  fun s =>
    let '(a, s1, t1) := c s in
    let '(b, s2, t2) := k a s1 in
    (b, s2, t1 ++ t2).

Notation "x <- c ;; k" := (bind c (fun x => k))
  (at level 61, c at next level, right associativity).
Notation "' pat <- c ;; k" := (bind c (fun x => match x with pat => k end))
  (at level 61, pat pattern, c at next level, right associativity).

(** The answer of the next call. *)
Definition next_answer (s : OS) : option error * list (option error) :=
  match answers s with
  | [] => (None, [])
  | a :: rest => (a, rest)
  end.

(** [Config.Getenv(key)] *)
Definition Getenv (key : string) : IO string :=
  fun s => (environ s key, s, []).

(** [os.MkdirAll(path, perm)] *)
Definition MkdirAll (path : string) (perm : Z) : IO (option error) :=
  fun s =>
    let '(a, rest) := next_answer s in
    (a, {| environ := environ s; answers := rest; disk := disk s |},
     [SysMkdirAll path perm]).

(** [os.OpenFile(name, flag, perm)]: the file, or a nil file and the
    error. *)
Definition OpenFile (name : string) (flag : list OpenFlag) (perm : Z)
  : IO (File + error) :=
  fun s =>
    let '(a, rest) := next_answer s in
    (match a with
     | None => inl {| Name := name |}
     | Some e => inr e
     end,
     {| environ := environ s; answers := rest; disk := disk s |},
     [SysOpenFile name flag perm]).

(** [file.Write(b)] on a file opened for appending; only the error is
    used by the caller. *)
Definition File_Write (file : File) (b : string) : IO (option error) :=
  fun s =>
    let '(a, rest) := next_answer s in
    (a,
     {| environ := environ s;
        answers := rest;
        disk := match a with
                | None =>
                    fun name =>
                      if String.eqb name (Name file)
                      then (disk s name ++ b)%string
                      else disk s name
                | Some _ => disk s
                end |},
     [SysWrite (Name file) b]).

(** [file.Sync()] *)
Definition File_Sync (file : File) : IO (option error) :=
  fun s =>
    let '(a, rest) := next_answer s in
    (a, {| environ := environ s; answers := rest; disk := disk s |},
     [SysSync (Name file)]).

(** What the next call will return. *)
Definition first_answer (s : OS) : option error := fst (next_answer s).

(** [func wrapProgressError(err error, event, filename string) error] *)
Definition wrapProgressError (err : option error) (event filename : string)
  : option error :=
  match err with
  | Some e =>
      Some (ErrMsg ("Error writing Git LFS " ++ event ++ " progress to "
                    ++ filename ++ ": " ++ Error e)%string)
  | None => None
  end.

(** The line that the callback formats:
    [fmt.Sprintf("%s %d/%d %d/%d %s\n", event, index, totalFiles, written,
    total, filename)]. *)
Definition progress_line (event : string) (index totalFiles written total : Z)
    (filename : string) : string :=
  (event ++ " " ++ fmt_d index ++ "/" ++ fmt_d totalFiles ++ " "
   ++ fmt_d written ++ "/" ++ fmt_d total ++ " " ++ filename
   ++ String (ascii_of_nat 10) EmptyString)%string.

(** The closure that [CopyCallbackFile] returns: the variables it captures,
    of which it assigns [prevWritten]. *)
Record Closure : Type := mkClosure {
  event : string;
  filename : string;
  index : Z;
  totalFiles : Z;
  logPath : string;
  file : File;
  prevWritten : Z
}.

Definition set_prevWritten (c : Closure) (z : Z) : Closure :=
  {| event := event c; filename := filename c; index := index c;
     totalFiles := totalFiles c; logPath := logPath c; file := file c;
     prevWritten := z |}.

(** [cb := CopyCallback(func(total int64, written int64, current int)
    error {...})]; the closure is returned with its new [prevWritten]. *)
Definition cb (c : Closure) (total written current : Z)
  : IO (option error * Closure) :=
  if negb (written =? prevWritten c) then
    err <- File_Write (file c)
             (progress_line (event c) (index c) (totalFiles c) written total
                (filename c)) ;;
    _ <- File_Sync (file c) ;;
    let c := set_prevWritten c written in
    ret (wrapProgressError err (event c) (logPath c), c)
  else
    ret (None, c).

(** The closure at the type [CopyCallback], as [CopyWithCallback] takes
    it: the state it works on is its captured variables, the file system
    and the calls made into it. *)
Definition as_CopyCallback
  : Progress.CopyCallback (Closure * OS * list SysCall) :=
  fun total written current st =>
    let '(c, s, calls) := st in
    let '((err, c'), s', t) := cb c total written current s in
    (err, (c', s', calls ++ t)).

(** The permission bits [0755] and [0666]. *)
Definition perm_0755 : Z := 7 * 64 + 5 * 8 + 5.
Definition perm_0666 : Z := 6 * 64 + 6 * 8 + 6.

Section Factory.

Context {fp : Filepath}.

(** [func CopyCallbackFile(event, filename string, index, totalFiles int)
    (CopyCallback, *os.File, error)] *)
Definition CopyCallbackFile (event filename : string)
    (index totalFiles : Z)
  : IO (option Closure * option File * option error) :=
  logPath <- Getenv "GIT_LFS_PROGRESS" ;;
  if (len logPath =? 0) || (len filename =? 0) || (len event =? 0) then
    ret (None, None, None)
  else if negb (IsAbs logPath) then
    ret (None, None,
         Some (ErrMsg "GIT_LFS_PROGRESS must be an absolute path"))
  else
    let cbDir := Dir logPath in
    err <- MkdirAll cbDir perm_0755 ;;
    match err with
    | Some _ => ret (None, None, wrapProgressError err event logPath)
    | None =>
        opened <- OpenFile logPath [O_WRONLY; O_CREATE; O_APPEND] perm_0666 ;;
        match opened with
        | inr e =>
            ret (None, None, wrapProgressError (Some e) event logPath)
        | inl file =>
            let prevWritten := 0 in
            ret (Some {| event := event; filename := filename;
                         index := index; totalFiles := totalFiles;
                         logPath := logPath; file := file;
                         prevWritten := prevWritten |},
                 Some file, None)
        end
    end.

End Factory.

End ProgressLog.

(** * The include/exclude filter *)

Module PathFilter.

Section Filter.

Context {fp : Filepath}.

(** [func IsWindows() bool] *)
Definition IsWindows : bool := String.eqb GOOS "windows".

(** The loop over [includePaths]; its value is [matched] when the loop
    is left. *)
Fixpoint include_loop (filename cleanfilename : string)
    (includePaths : list string) (matched : bool) : bool :=
  match includePaths with
  | [] => matched
  | inc :: rest =>
      let matched := fst (Match inc filename) in
      let matched :=
        if negb matched && IsWindows
        then fst (Match inc cleanfilename)
        else matched in
      let matched :=
        if negb matched then
          if HasPrefix cleanfilename (inc ++ string_of_byte Separator)
          then true
          else matched
        else matched in
      if matched then matched
      else include_loop filename cleanfilename rest matched
  end.

(** The loop over [excludePaths]: [false] when it returns [false] from
    the function, [true] when it runs to its end. *)
Fixpoint exclude_loop (filename cleanfilename : string)
    (excludePaths : list string) : bool :=
  match excludePaths with
  | [] => true
  | ex :: rest =>
      let matched := fst (Match ex filename) in
      let matched :=
        if negb matched && IsWindows
        then fst (Match ex cleanfilename)
        else matched in
      if matched then false
      else if HasPrefix cleanfilename (ex ++ string_of_byte Separator)
      then false
      else exclude_loop filename cleanfilename rest
  end.

(** [func FilenamePassesIncludeExcludeFilter(filename string,
    includePaths, excludePaths []string) bool] *)
Definition FilenamePassesIncludeExcludeFilter (filename : string)
    (includePaths excludePaths : list string) : bool :=
  if (Z.of_nat (List.length includePaths) =? 0)
     && (Z.of_nat (List.length excludePaths) =? 0)
  then true
  else
    let cleanfilename := Clean filename in
    if (0 <? Z.of_nat (List.length includePaths))
       && negb (include_loop filename cleanfilename includePaths false)
    then false
    else if (0 <? Z.of_nat (List.length excludePaths))
            && negb (exclude_loop filename cleanfilename excludePaths)
    then false
    else true.

(** The three ways in which the code takes a pattern to match a path:
    the glob matches the path as given; on Windows, the glob matches the
    cleaned path; the cleaned path starts with the pattern and a
    separator. *)
Definition pattern_matches (pattern filename : string) : bool :=
  fst (Match pattern filename)
  || (IsWindows && fst (Match pattern (Clean filename)))
  || HasPrefix (Clean filename) (pattern ++ string_of_byte Separator).

End Filter.

End PathFilter.

(** * A POSIX implementation of [Filepath]

    The functions of [path/filepath] on a platform whose separator is the
    slash, after the package's documentation, on names of one-byte
    characters.  The theorems below hold for every [Filepath]; this one
    lets them be run. *)

Module Posix.

Local Open Scope char_scope.

Definition slash : ascii := "/".

(** The elements of a path, which the slashes separate. *)
Fixpoint elements (path cur : string) : list string :=
  match path with
  | EmptyString => [cur]
  | String c rest =>
      if Ascii.eqb c slash then cur :: elements rest EmptyString
      else elements rest (cur ++ String c EmptyString)%string
  end.

(** The elements that [Clean] keeps, the last one first in [out]: empty
    and [.] elements go, [..] takes the element before it with it, or
    stays when there is none to take and the path is not rooted. *)
Fixpoint clean_elements (rooted : bool) (els out : list string)
  : list string :=
  match els with
  | [] => rev out
  | e :: els =>
      if String.eqb e "" || String.eqb e "." then
        clean_elements rooted els out
      else if String.eqb e ".." then
        match out with
        | top :: below =>
            if String.eqb top ".." then clean_elements rooted els (e :: out)
            else clean_elements rooted els below
        | [] =>
            if rooted then clean_elements rooted els []
            else clean_elements rooted els [e]
        end
      else clean_elements rooted els (e :: out)
  end.

Definition Clean (path : string) : string :=
  let rooted := String.prefix "/" path in
  let kept := String.concat "/" (clean_elements rooted (elements path "") []) in
  if rooted then ("/" ++ kept)%string
  else if String.eqb kept "" then "."%string
  else kept.

Definition IsAbs (path : string) : bool := String.prefix "/" path.

(** The path up to its last slash. *)
Fixpoint up_to_last_slash (path : string) : string :=
  match path with
  | EmptyString => EmptyString
  | String c rest =>
      let r := up_to_last_slash rest in
      if Ascii.eqb c slash || negb (String.eqb r "") then String c r
      else EmptyString
  end.

Definition Dir (path : string) : string := Clean (up_to_last_slash path).

(** The terms of a pattern: [*], [?], a character class, a character. *)
Inductive term : Type :=
| Star
| AnyChar
| Class (negated : bool) (ranges : list (ascii * ascii))
| Lit (c : ascii).

(** One character of a class, which a backslash may escape; the class
    must go on after it. *)
Definition getEsc (chunk : list ascii) : option (ascii * list ascii) :=
  match chunk with
  | [] => None
  | c :: rest =>
      if Ascii.eqb c "-" || Ascii.eqb c "]" then None
      else if Ascii.eqb c "\" then
        match rest with
        | c' :: (_ :: _) as rest' => Some (c', rest')
        | _ => None
        end
      else
        match rest with
        | [] => None
        | _ => Some (c, rest)
        end
  end.

(** The ranges of a class up to its closing bracket, which ends the class
    once it has a range. *)
Fixpoint scan_ranges (fuel : nat) (chunk : list ascii) (nrange : nat)
  : option (list (ascii * ascii) * list ascii) :=
  match fuel with
  | O => None
  | S fuel =>
      let more lo hi rest :=
        match scan_ranges fuel rest (S nrange) with
        | Some (rs, rest') => Some ((lo, hi) :: rs, rest')
        | None => None
        end in
      match chunk, nrange with
      | c :: rest, S _ =>
          if Ascii.eqb c "]" then Some ([], rest)
          else
            match getEsc chunk with
            | Some (lo, d :: rest1) =>
                if Ascii.eqb d "-" then
                  match getEsc rest1 with
                  | Some (hi, rest2) => more lo hi rest2
                  | None => None
                  end
                else more lo lo (d :: rest1)
            | _ => None
            end
      | _, _ =>
          match getEsc chunk with
          | Some (lo, d :: rest1) =>
              if Ascii.eqb d "-" then
                match getEsc rest1 with
                | Some (hi, rest2) => more lo hi rest2
                | None => None
                end
              else more lo lo (d :: rest1)
          | _ => None
          end
      end
  end.

(** The terms of a pattern; [None] for a malformed one. *)
Fixpoint scan (fuel : nat) (pattern : list ascii) : option (list term) :=
  match pattern with
  | [] => Some []
  | c :: rest =>
      match fuel with
      | O => None
      | S fuel =>
          let more t rest :=
            match scan fuel rest with
            | Some ts => Some (t :: ts)
            | None => None
            end in
          if Ascii.eqb c "*" then more Star rest
          else if Ascii.eqb c "?" then more AnyChar rest
          else if Ascii.eqb c "[" then
            let '(negated, body) :=
              match rest with
              | d :: rest' =>
                  if Ascii.eqb d "^" then (true, rest') else (false, rest)
              | [] => (false, rest)
              end in
            match scan_ranges (S (List.length body)) body 0 with
            | Some (rs, rest') => more (Class negated rs) rest'
            | None => None
            end
          else if Ascii.eqb c "\" then
            match rest with
            | d :: rest' => more (Lit d) rest'
            | [] => None
            end
          else more (Lit c) rest
      end
  end.

Definition in_ranges (c : ascii) (rs : list (ascii * ascii)) : bool :=
  existsb (fun r => (nat_of_ascii (fst r) <=? nat_of_ascii c)%nat
                    && (nat_of_ascii c <=? nat_of_ascii (snd r))%nat) rs.

(** A star stands for any run of characters without a slash, a question
    mark for one character that is not a slash. *)
Fixpoint match_terms (ts : list term) (name : list ascii) : bool :=
  match ts with
  | [] => match name with [] => true | _ => false end
  | Star :: ts' =>
      (fix skip (name : list ascii) : bool :=
         match_terms ts' name
         || match name with
            | c :: name' => negb (Ascii.eqb c slash) && skip name'
            | [] => false
            end) name
  | AnyChar :: ts' =>
      match name with
      | c :: name' => negb (Ascii.eqb c slash) && match_terms ts' name'
      | [] => false
      end
  | Class negated rs :: ts' =>
      match name with
      | c :: name' => xorb (in_ranges c rs) negated && match_terms ts' name'
      | [] => false
      end
  | Lit l :: ts' =>
      match name with
      | c :: name' => Ascii.eqb c l && match_terms ts' name'
      | [] => false
      end
  end.

Definition ErrBadPattern : error := ErrMsg "syntax error in pattern".

Definition Match (pattern name : string) : bool * option error :=
  let p := list_ascii_of_string pattern in
  match scan (List.length p) p with
  | Some ts => (match_terms ts (list_ascii_of_string name), None)
  | None => (false, Some ErrBadPattern)
  end.

#[export] Instance filepath : Filepath :=
  Build_Filepath "linux" slash IsAbs Dir Clean Match.

End Posix.

(** * Whole runs of the copy and of the log callback

    What the properties of whole runs are stated with. *)

Module CopyRuns.

Import Progress.

(** A writer that takes all the bytes it is given and returns no error. *)
Definition writes_all {WrState : Type}
    (dst_Write : Z -> WrState -> (Z * option error) * WrState) : Prop :=
  forall n d, fst (dst_Write n d) = (n, None).

(** A callback that returns no error, whatever it is called with. *)
Definition never_fails {CbState : Type} (cb : CopyCallback CbState) : Prop :=
  forall total soFar n st, fst (cb total soFar n st) = None.

(** The reads of a sequence up to its first read with an error, that read
    included. *)
Fixpoint up_to_first_error (rs : list ReadResult) : list ReadResult :=
  match rs with
  | [] => []
  | (n, None) :: rs => (n, None) :: up_to_first_error rs
  | (n, Some e) :: _ => [(n, Some e)]
  end.

(** The error of the first read with an error. *)
Fixpoint first_error (rs : list ReadResult) : option error :=
  match rs with
  | [] => None
  | (_, None) :: rs => first_error rs
  | (_, Some e) :: _ => Some e
  end.

(** The error that [io.Copy] returns when a read with the error [e] ends
    it: none for [EOF]. *)
Definition copy_error (e : option error) : option error :=
  match e with
  | Some EOF => None
  | _ => e
  end.

(** A trace without its callback invocations. *)
Fixpoint without_callbacks (t : list Event) : list Event :=
  match t with
  | [] => []
  | EvCallback _ _ _ :: t => without_callbacks t
  | ev :: t => ev :: without_callbacks t
  end.

(** The sum of the counts above zero. *)
Fixpoint sum_positive (rs : list ReadResult) : Z :=
  match rs with
  | [] => 0
  | (n, _) :: rs => Z.max 0 n + sum_positive rs
  end.

(** The state of a callback after the invocations [calls], in order. *)
Definition cb_state_after {CbState : Type} (cb : CopyCallback CbState)
    (calls : list (Z * Z * Z)) (st : CbState) : CbState :=
  fold_left (fun st call =>
               let '(total, soFar, n) := call in snd (cb total soFar n st))
    calls st.

(** The callback of a reader, when it has one, never fails. *)
Definition quiet {CbState : Type} (w : CallbackReader CbState) : Prop :=
  forall cb, C w = Some cb -> never_fails cb.

(** On the states that [Inv] holds of, the callback of a reader returns no
    error and leaves a state that [Inv] holds of. *)
Definition quiet_on {CbState : Type} (Inv : CbState -> Prop)
    (w : CallbackReader CbState) : Prop :=
  forall cb, C w = Some cb ->
    forall total soFar n st,
      Inv st ->
      fst (cb total soFar n st) = None /\ Inv (snd (cb total soFar n st)).


(** Every read of the sequence returned at least one byte and no error. *)
Definition all_good_reads (rs : list ReadResult) : Prop :=
  Forall (fun r => 0 < fst r /\ snd r = None) rs.

End CopyRuns.

Module LogRuns.

Import ProgressLog.

(** The callback invoked with each of [calls], in order: the errors it
    returned, and the closure after the last one. *)
Fixpoint run_cb (c : Closure) (calls : list (Z * Z * Z))
  : IO (list (option error) * Closure) :=
  match calls with
  | [] => ret ([], c)
  | (total, written, current) :: rest =>
      '(err, c) <- cb c total written current ;;
      '(errs, c) <- run_cb c rest ;;
      ret (err :: errs, c)
  end.

(** The invocations whose count differs from the count of the invocation
    before, [prev] being the count before the first. *)
Fixpoint changed_counts (prev : Z) (calls : list (Z * Z * Z))
  : list (Z * Z * Z) :=
  match calls with
  | [] => []
  | (total, written, current) :: rest =>
      if written =? prev then changed_counts prev rest
      else (total, written, current) :: changed_counts written rest
  end.

(** The log lines of the invocations [calls], one after the other. *)
Fixpoint lines_of (c : Closure) (calls : list (Z * Z * Z)) : string :=
  match calls with
  | [] => EmptyString
  | (total, written, _) :: rest =>
      (progress_line (event c) (index c) (totalFiles c) written total
         (filename c)
       ++ lines_of c rest)%string
  end.

(** What the [k]-th of the calls to come will return, counted from 0. *)
Definition answer_at (k : nat) (s : OS) : option error :=
  nth k (answers s) None.

(** The flags that the log is opened with. *)
Definition append_flags : list OpenFlag := [O_WRONLY; O_CREATE; O_APPEND].

(** Two closures with the same captured values, but for [prevWritten]. *)
Definition same_capture (c c1 : Closure) : Prop :=
  event c1 = event c /\ filename c1 = filename c /\ index c1 = index c
  /\ totalFiles c1 = totalFiles c /\ logPath c1 = logPath c
  /\ file c1 = file c.

(** A call that writes to the file [name] or flushes it. *)
Definition writes_or_syncs (name : string) (call : SysCall) : Prop :=
  call = SysSync name \/ exists data, call = SysWrite name data.

(** The count of the last invocation, [prev] when there is none. *)
Fixpoint last_count (prev : Z) (calls : list (Z * Z * Z)) : Z :=
  match calls with
  | [] => prev
  | (_, written, _) :: rest => last_count written rest
  end.

End LogRuns.

(** * Sample readers, callbacks and logs

    Concrete inputs on which the properties below are run. *)

Module Samples.

Import Progress ProgressLog.

(** A writer that takes every byte it is given. *)
Definition discard (n : Z) (d : unit) : (Z * option error) * unit :=
  ((n, None), d).

(** A callback that keeps what it was called with and never fails. *)
Definition keep_calls : CopyCallback (list (Z * Z * Z)) :=
  fun total soFar n seen => (None, seen ++ [(total, soFar, n)]).

(** A callback that fails once more than [limit] bytes have been read. *)
Definition cancel_after (limit : Z) : CopyCallback (list (Z * Z * Z)) :=
  fun total soFar n seen =>
    (if limit <? soFar then Some (ErrMsg "cancelled") else None,
     seen ++ [(total, soFar, n)]).

(** A reader that returns its last five bytes together with [EOF]. *)
Definition bytes_with_eof : World (list (Z * Z * Z)) unit :=
  mkWorld [(4, None); (5, Some EOF)] [] tt.

(** A reader that returns four bytes, then three, then is at its end. *)
Definition two_chunks : World (list (Z * Z * Z)) unit :=
  mkWorld [(4, None); (3, None)] [] tt.

(** An environment that configures the progress log at [path], an empty
    disk, and the given answers of the calls to come. *)
Definition progress_os (path : string) (answers : list (option error)) : OS :=
  {| environ := fun key =>
                  if String.eqb key "GIT_LFS_PROGRESS" then path
                  else EmptyString;
     answers := answers;
     disk := fun _ => EmptyString |}.

Definition progress_log : string := "/var/log/lfs/progress.log".

(** The closure that [CopyCallbackFile "download" "path/to/file.bin" 2 5]
    returns when the log is configured at [progress_log]. *)
Definition download_closure : Closure :=
  {| event := "download"; filename := "path/to/file.bin";
     index := 2; totalFiles := 5;
     logPath := progress_log; file := {| Name := progress_log |};
     prevWritten := 0 |}.

Definition EIO : error := ErrMsg "input/output error".

(** The log is configured; the next call succeeds and the one after it
    fails. *)
Definition sync_fails : OS := progress_os progress_log [None; Some EIO].

End Samples.

(** More samples, for the properties of whole runs. *)

Module MoreSamples.

Import Progress ProgressLog Samples.

(** A reader that fails on its second read, after two more bytes. *)
Definition reset_midway : World (list (Z * Z * Z)) unit :=
  mkWorld [(4, None); (2, Some (ErrMsg "connection reset")); (3, None)]
    [] tt.

(** A reader that breaks the contract of [io.Reader] with a count below
    zero. *)
Definition negative_count : World (list (Z * Z * Z)) unit :=
  mkWorld [(4, None); (-1, None); (0, None)] [] tt.

(** A reader whose next read returns five bytes and [EOF]. *)
Definition last_bytes : World (list (Z * Z * Z)) unit :=
  mkWorld [(5, Some EOF)] [] tt.


(** Three invocations of the log callback, the second with the count of
    the first. *)
Definition three_calls : list (Z * Z * Z) :=
  [(100, 50, 50); (100, 50, 0); (100, 80, 30)].

(** The third call into the file system fails. *)
Definition third_fails : OS := progress_os progress_log [None; None; Some EIO].

(** A reader of four bytes, then three, for a copy with the log
    callback. *)
Definition logged_chunks : World (Closure * OS * list SysCall) unit :=
  mkWorld [(4, None); (3, None)]
    (download_closure, progress_os progress_log [], []) tt.

End MoreSamples.

(** * Properties of the progress-observing reader *)

Section CopyFacts.

Import Progress.

Variables CbState WrState : Type.
Variable dst_Write : Z -> WrState -> (Z * option error) * WrState.

Lemma wrap64_small (z : Z) : int64_range z -> wrap64 z = z.
Proof.
  unfold int64_range, wrap64. intros H.
  rewrite Z.mod_small by lia. lia.
Qed.

Lemma reads_of_app (t1 t2 : list Event) :
  reads_of (t1 ++ t2) = reads_of t1 ++ reads_of t2.
Proof.
  induction t1 as [|[n err|a b c|n] t1 IH]; simpl; auto. now rewrite IH.
Qed.

Lemma calls_of_app (t1 t2 : list Event) :
  calls_of (t1 ++ t2) = calls_of t1 ++ calls_of t2.
Proof.
  induction t1 as [|[n err|a b c|n] t1 IH]; simpl; auto. now rewrite IH.
Qed.

Lemma ReadSize_after_app (acc : Z) (rs1 rs2 : list ReadResult) :
  ReadSize_after acc (rs1 ++ rs2) = ReadSize_after (ReadSize_after acc rs1) rs2.
Proof.
  revert acc. induction rs1 as [|[n err] rs1 IH]; intros acc; simpl; auto.
Qed.

Lemma calls_after_app (T acc : Z) (rs1 rs2 : list ReadResult) :
  calls_after T acc (rs1 ++ rs2)
  = calls_after T acc rs1 ++ calls_after T (ReadSize_after acc rs1) rs2.
Proof.
  revert acc. induction rs1 as [|[n [e|]] rs1 IH]; intros acc; simpl; auto.
  now rewrite IH.
Qed.

Lemma sum_bytes_app (rs1 rs2 : list ReadResult) :
  sum_bytes (rs1 ++ rs2) = sum_bytes rs1 + sum_bytes rs2.
Proof.
  induction rs1 as [|[n err] rs1 IH]; simpl; auto. rewrite IH. lia.
Qed.

Lemma sum_bytes_nonneg (rs : list ReadResult) :
  counts_nonneg rs -> 0 <= sum_bytes rs.
Proof.
  induction 1 as [|[n err] rs Hn _ IH]; simpl in *; lia.
Qed.

(** Without overflow and with counts that are not negative, the count in
    [int64] is the sum of the counts. *)
Lemma ReadSize_after_sum (acc : Z) (rs : list ReadResult) :
  counts_nonneg rs -> - 2 ^ 63 <= acc -> acc + sum_bytes rs < 2 ^ 63 ->
  ReadSize_after acc rs = acc + sum_bytes rs.
Proof.
  intros Hnn. revert acc.
  induction Hnn as [|[n err] rs Hn Hrs IH]; intros acc Hacc Hsum; simpl in *.
  - lia.
  - pose proof (sum_bytes_nonneg rs Hrs) as Hs.
    destruct (0 <? n) eqn:En.
    + apply Z.ltb_lt in En.
      rewrite wrap64_small by (unfold int64_range; lia).
      rewrite IH by lia. lia.
    + apply Z.ltb_ge in En. assert (n = 0) by lia. subst n.
      rewrite IH by lia. lia.
Qed.

Lemma calls_after_triples (T acc : Z) (rs : list ReadResult) :
  counts_nonneg rs -> - 2 ^ 63 <= acc -> acc + sum_bytes rs < 2 ^ 63 ->
  calls_after T acc rs = triples_good_reads T acc rs.
Proof.
  intros Hnn. revert acc.
  induction Hnn as [|[n err] rs Hn Hrs IH]; intros acc Hacc Hsum; simpl in *.
  - reflexivity.
  - pose proof (sum_bytes_nonneg rs Hrs) as Hs.
    assert (Hacc' : (if 0 <? n then wrap64 (acc + n) else acc) = acc + n).
    { destruct (0 <? n) eqn:En.
      - apply Z.ltb_lt in En. apply wrap64_small. unfold int64_range. lia.
      - apply Z.ltb_ge in En. lia. }
    rewrite Hacc'. rewrite IH by lia. reflexivity.
Qed.

(** One call of [Read]: what it returns, what it leaves, what it calls. *)
Lemma Read_inv (w : CallbackReader CbState) (s : World CbState WrState)
    res w1 s1 t1 :
  Read w s = ((res, w1), s1, t1) ->
  fst res = fst (next_read s)
  /\ C w1 = C w /\ TotalSize w1 = TotalSize w
  /\ ReadSize w1 = ReadSize_after (ReadSize w) [next_read s]
  /\ reads_of t1 = [next_read s]
  /\ calls_of t1 = match C w with
                   | Some _ => calls_after (TotalSize w) (ReadSize w) [next_read s]
                   | None => []
                   end
  /\ src s1 = tl (src s) /\ dst s1 = dst s
  /\ (snd res = None -> snd (next_read s) = None).
Proof.
  unfold Read, bind, Reader_Read, next_read, invoke, ret.
  destruct (src s) as [|[n err] rest] eqn:Es; simpl.
  - intros [= <- <- <- <-]. simpl. rewrite Es.
    destruct (C w); repeat split; auto; discriminate.
  - destruct (0 <? n) eqn:En; destruct err as [e|]; simpl;
      destruct (C w) as [cb|] eqn:Ec; simpl;
      try (destruct (cb _ _ _ _) as [e' c'] eqn:Ecb; simpl);
      intros [= <- <- <- <-]; simpl; rewrite ?Ec, ?En;
      repeat split; auto; try discriminate.
Qed.

(** Writing to the destination reads nothing and calls no callback. *)
Lemma copy_write_inv (nr written : Z) (s : World CbState WrState) res s1 t1 :
  (if 0 <? nr then copy_write dst_Write nr written else ret (written, None)) s
  = (res, s1, t1) ->
  reads_of t1 = [] /\ calls_of t1 = [] /\ src s1 = src s.
Proof.
  destruct (0 <? nr).
  - unfold copy_write, bind, Writer_Write, ret.
    destruct (dst_Write nr (dst s)) as [[nw [e|]] d]; simpl.
    + intros [= <- <- <-]. auto.
    + destruct (nr =? nw); intros [= <- <- <-]; auto.
  - unfold ret. intros [= <- <- <-]. auto.
Qed.

(** The invariant of the loop of [io.Copy] over a [CallbackReader]. *)
Lemma copy_loop_inv (fuel : nat) :
  forall (w : CallbackReader CbState) (written : Z)
         (s : World CbState WrState) res w' s' t,
    copy_loop dst_Write Read fuel w written s = ((res, w'), s', t) ->
    C w' = C w /\ TotalSize w' = TotalSize w
    /\ ReadSize w' = ReadSize_after (ReadSize w) (reads_of t)
    /\ calls_of t = match C w with
                    | Some _ =>
                        calls_after (TotalSize w) (ReadSize w) (reads_of t)
                    | None => []
                    end
    /\ issued_from (reads_of t) (src s) (src s').
Proof.
  induction fuel as [|fuel IH]; intros w written s res w' s' t; simpl.
  - unfold ret. intros [= <- <- <- <-]. simpl.
    destruct (C w); repeat split; auto; now left.
  - unfold bind at 1.
    destruct (Read w s) as [[[[nr er] w1] s1] t1] eqn:HR.
    apply Read_inv in HR.
    destruct HR as (Hn & HC & HT & HS & Hr & Hc & Hsrc & Hdst & Hnil).
    unfold bind at 1.
    destruct ((if 0 <? nr then copy_write dst_Write nr written
               else ret (written, None)) s1)
      as [[[written1 stop] s2] t2] eqn:HW.
    apply copy_write_inv in HW. destruct HW as (Hr2 & Hc2 & Hsrc2).
    assert (Hstopped :
      forall r0 : option (Z * option error),
        (r0, w1, s2, t1 ++ t2 ++ []) = (res, w', s', t) ->
        C w' = C w /\ TotalSize w' = TotalSize w
        /\ ReadSize w' = ReadSize_after (ReadSize w) (reads_of t)
        /\ calls_of t = match C w with
                        | Some _ =>
                            calls_after (TotalSize w) (ReadSize w) (reads_of t)
                        | None => []
                        end
        /\ issued_from (reads_of t) (src s) (src s')).
    { intros r0 [= <- <- <- <-].
      rewrite !reads_of_app, !calls_of_app, Hr, Hr2, Hc, Hc2. simpl.
      rewrite Hsrc2, Hsrc.
      repeat split; auto.
      - destruct (C w); auto. now rewrite app_nil_r.
      - unfold issued_from, answers_and_end, next_read.
        destruct (src s) as [|r rest]; simpl; auto. }
    destruct stop as [e|]; [unfold ret; apply Hstopped|].
    destruct er as [[| |msg]|]; try (unfold ret; apply Hstopped).
    clear Hstopped.
    destruct (copy_loop dst_Write Read fuel w1 written1 s2)
      as [[[res3 w3] s3] t3] eqn:HL.
    intros [= <- <- <- <-].
    apply IH in HL.
    destruct HL as (HC3 & HT3 & HS3 & Hc3 & Hiss).
    specialize (Hnil eq_refl).
    assert (Hnext : exists n rest, src s = (n, None) :: rest).
    { unfold next_read in Hnil. destruct (src s) as [|[n e] rest].
      - discriminate.
      - simpl in Hnil. subst e. eauto. }
    destruct Hnext as (n & rest & Es).
    assert (Enext : next_read s = (n, None)).
    { unfold next_read. now rewrite Es. }
    rewrite Hsrc2, Hsrc, Es in Hiss. simpl in Hiss.
    rewrite !reads_of_app, !calls_of_app, Hr, Hr2, Hc, Hc2, Enext. simpl app.
    rewrite HC3, HT3, HS3, Hc3, HC, HT, HS, Enext.
    split; [reflexivity|]. split; [reflexivity|]. split; [reflexivity|].
    split.
    + destruct (C w); reflexivity.
    + rewrite Es. unfold issued_from, answers_and_end in *.
      destruct Hiss as [Hiss|[Hiss1 Hiss2]].
      * left. simpl. now rewrite Hiss.
      * right. split; auto. simpl. now rewrite Hiss2.
Qed.

(** The copy returns: every pass of the loop takes one answer from the
    reader, and at the end of the input the reader answers [EOF]. *)
Lemma copy_loop_returns (fuel : nat) :
  forall (w : CallbackReader CbState) (written : Z)
         (s : World CbState WrState),
    (List.length (src s) < fuel)%nat ->
    exists res w' s' t,
      copy_loop dst_Write Read fuel w written s = ((Some res, w'), s', t).
Proof.
  induction fuel as [|fuel IH]; intros w written s Hlen; [lia|]. simpl.
  unfold bind at 1.
  destruct (Read w s) as [[[[nr er] w1] s1] t1] eqn:HR.
  apply Read_inv in HR.
  destruct HR as (_ & _ & _ & _ & _ & _ & Hsrc & _ & Hnil).
  unfold bind at 1.
  destruct ((if 0 <? nr then copy_write dst_Write nr written
             else ret (written, None)) s1)
    as [[[written1 stop] s2] t2] eqn:HW.
  apply copy_write_inv in HW. destruct HW as (_ & _ & Hsrc2).
  destruct stop as [e|]; [unfold ret; eauto|].
  destruct er as [[| |msg]|]; try (unfold ret; eauto).
  specialize (Hnil eq_refl).
  assert (Hlen2 : (List.length (src s2) < fuel)%nat).
  { rewrite Hsrc2, Hsrc. unfold next_read in Hnil.
    destruct (src s) as [|r rest]; [discriminate|]. simpl in *. lia. }
  destruct (IH w1 written1 s2 Hlen2) as (res & w' & s' & t & HL).
  rewrite HL. eauto.
Qed.

Lemma triples_good_reads_app (T acc : Z) (rs1 rs2 : list ReadResult) :
  triples_good_reads T acc (rs1 ++ rs2)
  = triples_good_reads T acc rs1
    ++ triples_good_reads T (acc + sum_bytes rs1) rs2.
Proof.
  revert acc. induction rs1 as [|[n [e|]] rs1 IH]; intros acc; simpl.
  - now rewrite Z.add_0_r.
  - rewrite IH. now rewrite Z.add_assoc.
  - rewrite IH. now rewrite Z.add_assoc.
Qed.

Lemma counts_nonneg_app (rs1 rs2 : list ReadResult) :
  counts_nonneg (rs1 ++ rs2) <-> counts_nonneg rs1 /\ counts_nonneg rs2.
Proof. unfold counts_nonneg. apply Forall_app. Qed.

(** The reads that were issued count no more bytes than the reader had. *)
Lemma issued_from_bounds (rs before after : list ReadResult) :
  issued_from rs before after -> counts_nonneg before ->
  counts_nonneg rs /\ sum_bytes rs <= sum_bytes before.
Proof.
  intros [H|[_ H]] Hnn.
  - subst before. apply counts_nonneg_app in Hnn. destruct Hnn as [H1 H2].
    split; auto. rewrite sum_bytes_app.
    pose proof (sum_bytes_nonneg after H2). lia.
  - subst rs. unfold answers_and_end. split.
    + apply counts_nonneg_app. split; auto.
      constructor; [simpl; lia|constructor].
    + rewrite sum_bytes_app. simpl. lia.
Qed.

(** When no answer of the reader is left, the reads that were issued are
    all its answers: the same bytes and the same reads without error. *)
Lemma issued_from_all (T : Z) (rs before : list ReadResult) :
  issued_from rs before [] ->
  sum_bytes rs = sum_bytes before
  /\ triples_good_reads T 0 rs = triples_good_reads T 0 before.
Proof.
  intros [H|[_ H]].
  - rewrite app_nil_r in H. now subst.
  - subst rs. unfold answers_and_end.
    rewrite sum_bytes_app, triples_good_reads_app. simpl.
    rewrite app_nil_r. split; [lia|reflexivity].
Qed.

(** C1 (amended).  For every sequence of reads through a
    [CallbackReader] with declared total size [T], [CopyWithCallback]
    returns, and after the copy [ReadSize] is the number of bytes that the
    underlying reads returned, while the callback has been invoked exactly
    once for every underlying read that returned no error, in read order,
    with the triple ([T], cumulative bytes read so far including this
    read, bytes returned by this read).  A read on which the source
    returns an error has its bytes counted and invokes no callback.  When
    the copy took every read of the sequence, these are the sum [S] and
    the triples of the whole sequence. *)
Theorem CopyWithCallback_reports_reads_without_error :
  forall (T : Z) (cb : CopyCallback CbState) (s : World CbState WrState),
    counts_nonneg (src s) ->
    sum_bytes (src s) < 2 ^ 63 ->
    exists res w' s' t,
      io_Copy dst_Write Read (mkCallbackReader (Some cb) T 0) s
      = ((Some res, w'), s', t)
      /\ CopyWithCallback dst_Write T (Some cb) s = (Some res, s', t)
      /\ issued_from (reads_of t) (src s) (src s')
      /\ ReadSize w' = sum_bytes (reads_of t)
      /\ calls_of t = triples_good_reads T 0 (reads_of t)
      /\ (src s' = [] ->
          ReadSize w' = sum_bytes (src s)
          /\ calls_of t = triples_good_reads T 0 (src s)).
Proof.
  intros T cb s Hnn Hsum.
  destruct (copy_loop_returns (S (List.length (src s)))
              (mkCallbackReader (Some cb) T 0) 0 s (Nat.lt_succ_diag_r _))
    as (res & w' & s' & t & HL).
  exists res, w', s', t.
  assert (Hio : io_Copy dst_Write Read (mkCallbackReader (Some cb) T 0) s
                = ((Some res, w'), s', t)) by exact HL.
  apply copy_loop_inv in HL. simpl in HL.
  destruct HL as (_ & _ & HS & Hc & Hiss).
  destruct (issued_from_bounds _ _ _ Hiss Hnn) as [Hnn' Hle].
  assert (HS' : ReadSize w' = sum_bytes (reads_of t)).
  { rewrite HS, ReadSize_after_sum; auto; lia. }
  assert (Hc' : calls_of t = triples_good_reads T 0 (reads_of t)).
  { rewrite Hc. apply calls_after_triples; auto; lia. }
  split; [exact Hio|]. split.
  { unfold CopyWithCallback, bind. rewrite Hio. unfold ret.
    now rewrite app_nil_r. }
  split; [exact Hiss|]. split; [exact HS'|]. split; [exact Hc'|].
  intros Hend. rewrite Hend in Hiss.
  destruct (issued_from_all T _ _ Hiss) as [H1 H2].
  now rewrite HS', Hc', H1, H2.
Qed.

Lemma sum_bytes_fst (rs1 rs2 : list ReadResult) :
  map fst rs1 = map fst rs2 -> sum_bytes rs1 = sum_bytes rs2.
Proof.
  revert rs2. induction rs1 as [|[n e] rs1 IH]; intros [|[n' e'] rs2];
    simpl; try discriminate; auto.
  intros [= -> H]. now rewrite (IH _ H).
Qed.

Lemma counts_nonneg_fst (rs1 rs2 : list ReadResult) :
  map fst rs1 = map fst rs2 -> counts_nonneg rs1 -> counts_nonneg rs2.
Proof.
  revert rs2. induction rs1 as [|[n e] rs1 IH]; intros [|[n' e'] rs2];
    simpl; try discriminate; intros H Hnn.
  - constructor.
  - injection H as -> H. inversion Hnn; subst.
    constructor; auto. now apply IH.
Qed.

(** [n] calls of [Read]: the counts they return are the counts of the
    underlying reads, and the receiver and the callback calls follow
    them. *)
Lemma read_many_inv (n : nat) :
  forall (w : CallbackReader CbState) (s : World CbState WrState)
         rs w' s' t,
    read_many n w s = ((rs, w'), s', t) ->
    List.length rs = n
    /\ map fst rs = map fst (reads_of t)
    /\ C w' = C w /\ TotalSize w' = TotalSize w
    /\ ReadSize w' = ReadSize_after (ReadSize w) (reads_of t)
    /\ calls_of t = match C w with
                    | Some _ =>
                        calls_after (TotalSize w) (ReadSize w) (reads_of t)
                    | None => []
                    end.
Proof.
  induction n as [|n IH]; intros w s rs w' s' t; simpl.
  - unfold ret. intros [= <- <- <- <-]. simpl.
    destruct (C w); repeat split; auto.
  - unfold bind at 1.
    destruct (Read w s) as [[[res w1] s1] t1] eqn:HR.
    apply Read_inv in HR.
    destruct HR as (Hn & HC & HT & HS & Hr & Hc & _).
    unfold bind at 1.
    destruct (read_many n w1 s1) as [[[rest w2] s2] t2] eqn:HM.
    apply IH in HM. destruct HM as (Hlen & Hfst & HC2 & HT2 & HS2 & Hc2).
    unfold ret. intros [= <- <- <- <-].
    rewrite app_nil_r, reads_of_app, calls_of_app, Hr, Hc, Hc2, HC2, HT2, HS2.
    rewrite HC, HT, HS. destruct (next_read s) as [k e].
    simpl. rewrite Hlen, Hfst, Hn. simpl.
    repeat (split; [reflexivity|]).
    destruct (C w); destruct e; reflexivity.
Qed.

(** C3.  After [n] calls of [Read], [ReadSize] has grown by the sum of
    the byte counts that those calls returned, so it never decreases and
    is never reset, and every callback invocation was given the cumulative
    count that already includes the bytes of its own read: [ReadSize] is
    updated before the callback is invoked. *)
Theorem ReadSize_is_sum_of_returned_counts :
  forall (n : nat) (w : CallbackReader CbState) (s : World CbState WrState)
         rs w' s' t,
    read_many n w s = ((rs, w'), s', t) ->
    counts_nonneg rs ->
    - 2 ^ 63 <= ReadSize w ->
    ReadSize w + sum_bytes rs < 2 ^ 63 ->
    List.length rs = n
    /\ ReadSize w' = ReadSize w + sum_bytes rs
    /\ ReadSize w <= ReadSize w'
    /\ map fst (reads_of t) = map fst rs
    /\ calls_of t = match C w with
                    | Some _ =>
                        triples_good_reads (TotalSize w) (ReadSize w)
                          (reads_of t)
                    | None => []
                    end.
Proof.
  intros n w s rs w' s' t HM Hnn Hlo Hhi.
  apply read_many_inv in HM.
  destruct HM as (Hlen & Hfst & _ & _ & HS & Hc).
  pose proof (counts_nonneg_fst _ _ Hfst Hnn) as Hnn'.
  pose proof (sum_bytes_fst _ _ Hfst) as Hsum.
  pose proof (sum_bytes_nonneg _ Hnn) as Hpos.
  assert (HS' : ReadSize w' = ReadSize w + sum_bytes rs).
  { rewrite HS, ReadSize_after_sum; auto; lia. }
  repeat split; auto; try lia.
  rewrite Hc. destruct (C w); auto.
  apply calls_after_triples; auto; lia.
Qed.

(** A read that the source answers without error and on which the
    callback fails. *)
Lemma Read_callback_failure (w : CallbackReader CbState)
    (s : World CbState WrState) (n : Z) (rest : list ReadResult)
    (cb : CopyCallback CbState) (e : error) (c' : CbState) :
  src s = (n, None) :: rest ->
  C w = Some cb ->
  0 <= n ->
  int64_range (ReadSize w + n) ->
  cb (TotalSize w) (ReadSize w + n) n (cbst s) = (Some e, c') ->
  Read w s
  = (((n, Some e), set_ReadSize w (ReadSize w + n)),
     mkWorld rest c' (dst s),
     [EvRead n None; EvCallback (TotalSize w) (ReadSize w + n) n])
    \/ (n = 0 /\
        Read w s
        = (((n, Some e), w), mkWorld rest c' (dst s),
           [EvRead n None; EvCallback (TotalSize w) (ReadSize w + n) n])).
Proof.
  intros Es Ec Hn Hrange Hcb.
  unfold Read, bind, Reader_Read, invoke, ret. rewrite Es.
  destruct (0 <? n) eqn:En; simpl; rewrite Ec.
  - left. rewrite wrap64_small by exact Hrange. simpl. now rewrite Hcb.
  - right. apply Z.ltb_ge in En. assert (n = 0) by lia. subst n.
    rewrite Z.add_0_r in Hcb. split; [reflexivity|].
    rewrite Z.add_0_r. simpl. now rewrite Hcb.
Qed.

(** C4.  On a read where the underlying read succeeds and the callback
    returns a failure, [Read] returns that failure as its own error
    together with the bytes of the read, which are counted in [ReadSize];
    the copy that issued the read returns after it without another read,
    and with an error unless the callback's failure is [EOF]. *)
Theorem callback_failure_is_read_failure :
  forall (w : CallbackReader CbState) (s : World CbState WrState)
         (n : Z) (rest : list ReadResult) (cb : CopyCallback CbState)
         (e : error) (c' : CbState) (fuel : nat) (written : Z),
    src s = (n, None) :: rest ->
    C w = Some cb ->
    0 <= n ->
    int64_range (ReadSize w + n) ->
    cb (TotalSize w) (ReadSize w + n) n (cbst s) = (Some e, c') ->
    (exists w1 s1,
        Read w s
        = (((n, Some e), w1), s1,
           [EvRead n None; EvCallback (TotalSize w) (ReadSize w + n) n])
        /\ ReadSize w1 = ReadSize w + n
        /\ src s1 = rest)
    /\ (exists res w' s' t,
          copy_loop dst_Write Read (S fuel) w written s
          = ((Some res, w'), s', t)
          /\ reads_of t = [(n, None)]
          /\ calls_of t = [(TotalSize w, ReadSize w + n, n)]
          /\ src s' = rest
          /\ ReadSize w' = ReadSize w + n
          /\ (e <> EOF -> snd res <> None)).
Proof.
  intros w s n rest cb e c' fuel written Es Ec Hn Hrange Hcb.
  assert (HR : exists w1,
             Read w s
             = (((n, Some e), w1), mkWorld rest c' (dst s),
                [EvRead n None; EvCallback (TotalSize w) (ReadSize w + n) n])
             /\ ReadSize w1 = ReadSize w + n).
  { destruct (Read_callback_failure w s n rest cb e c' Es Ec Hn Hrange Hcb)
      as [H|[H0 H]]; eexists; (split; [exact H|]); simpl; lia. }
  destruct HR as (w1 & HR & HS).
  split.
  - exists w1, (mkWorld rest c' (dst s)). auto.
  - simpl. unfold bind at 1. rewrite HR. unfold bind at 1.
    destruct ((if 0 <? n then copy_write dst_Write n written
               else ret (written, None)) (mkWorld rest c' (dst s)))
      as [[[written1 stop] s2] t2] eqn:HW.
    apply copy_write_inv in HW. destruct HW as (Hr2 & Hc2 & Hsrc2).
    simpl in Hsrc2.
    destruct stop as [ew|].
    + unfold ret. do 4 eexists. split; [reflexivity|].
      rewrite !reads_of_app, !calls_of_app, Hr2, Hc2. simpl.
      repeat split; auto. discriminate.
    + destruct e as [| |msg]; unfold ret; do 4 eexists;
        (split; [reflexivity|]);
        rewrite !reads_of_app, !calls_of_app, Hr2, Hc2; simpl;
        repeat split; auto; try discriminate; congruence.
Qed.

End CopyFacts.

(** * Properties of the callback that writes the progress log *)

Section LogFacts.

Import ProgressLog.

Context {fp : Filepath}.

Lemma len_zero (s : string) : (len s =? 0) = true <-> s = EmptyString.
Proof.
  unfold len. destruct s; simpl; split; intros H; auto; discriminate.
Qed.

Lemma len_nonzero (s : string) : s <> EmptyString -> (len s =? 0) = false.
Proof.
  intros H. destruct (len s =? 0) eqn:E; auto.
  apply len_zero in E. contradiction.
Qed.

(** What the callback does when the count differs from the last one. *)
Lemma cb_changed (c : Closure) (total written current : Z) (s : OS) :
  written <> prevWritten c ->
  cb c total written current s
  = ((wrapProgressError (first_answer s) (event c) (logPath c),
      set_prevWritten c written),
     snd (fst (File_Sync (file c)
                 (snd (fst (File_Write (file c)
                              (progress_line (event c) (index c)
                                 (totalFiles c) written total (filename c))
                              s))))),
     [SysWrite (Name (file c))
        (progress_line (event c) (index c) (totalFiles c) written total
           (filename c));
      SysSync (Name (file c))]).
Proof.
  intros Hneq. unfold cb.
  apply Z.eqb_neq in Hneq. rewrite Hneq. simpl.
  unfold bind, File_Write, File_Sync, ret, first_answer.
  destruct (next_answer s) as [a rest]. simpl.
  destruct (next_answer _) as [a2 rest2]. reflexivity.
Qed.

(** What the callback does when the count is the last one. *)
Lemma cb_unchanged (c : Closure) (total written current : Z) (s : OS) :
  written = prevWritten c ->
  cb c total written current s = ((None, c), s, []).
Proof.
  intros Heq. unfold cb. apply Z.eqb_eq in Heq. now rewrite Heq.
Qed.

(** C2 (amended).  When the callback produced by [CopyCallbackFile]
    attempts to append a log line and the write fails, the failure is
    wrapped with the event name and the destination path and returned as
    the callback's failure. *)
Theorem cb_write_failure_is_wrapped :
  forall (c : Closure) (total written current : Z) (s : OS) (e : error),
    written <> prevWritten c ->
    first_answer s = Some e ->
    fst (fst (fst (cb c total written current s)))
    = Some (ErrMsg ("Error writing Git LFS " ++ event c ++ " progress to "
                    ++ logPath c ++ ": " ++ Error e)%string).
Proof.
  intros c total written current s e Hneq Hans.
  rewrite cb_changed by exact Hneq. simpl. now rewrite Hans.
Qed.

(** C5.  The callback compares the cumulative count with the last value
    it wrote.  When they are equal it writes nothing and returns no
    error.  Otherwise it writes one line
    [<event> <index>/<totalFiles> <written>/<total> <filename>] with a
    newline, which a successful write appends to the log, calls [Sync],
    and records the count as the last value written; so an invocation
    that follows with the same count writes nothing. *)
Theorem cb_writes_one_line_per_count :
  forall (c : Closure) (total written current : Z) (s : OS) r c1 s1 t1,
    cb c total written current s = ((r, c1), s1, t1) ->
    (written = prevWritten c ->
     r = None /\ c1 = c /\ s1 = s /\ t1 = [])
    /\ (written <> prevWritten c ->
        t1 = [SysWrite (Name (file c))
                (event c ++ " " ++ fmt_d (index c) ++ "/"
                 ++ fmt_d (totalFiles c) ++ " " ++ fmt_d written ++ "/"
                 ++ fmt_d total ++ " " ++ filename c
                 ++ String (ascii_of_nat 10) EmptyString)%string;
              SysSync (Name (file c))]
        /\ (first_answer s = None ->
            r = None
            /\ disk s1 (Name (file c))
               = (disk s (Name (file c))
                  ++ progress_line (event c) (index c) (totalFiles c)
                       written total (filename c))%string))
    /\ prevWritten c1 = written
    /\ (forall total' current',
          cb c1 total' written current' s1 = ((None, c1), s1, [])).
Proof.
  intros c total written current s r c1 s1 t1 H.
  destruct (Z.eq_dec written (prevWritten c)) as [Heq|Hneq].
  - rewrite cb_unchanged in H by exact Heq.
    injection H as <- <- <- <-.
    split; [auto|]. split; [contradiction|]. split; [auto|].
    intros total' current'. now apply cb_unchanged.
  - rewrite cb_changed in H by exact Hneq.
    injection H as <- <- <- <-.
    split; [contradiction|]. split.
    + intros _. split; [reflexivity|].
      intros Hans. split; [now rewrite Hans|].
      unfold File_Sync, File_Write, first_answer in *.
      destruct (next_answer s) as [a rest]. simpl in Hans. subst a. simpl.
      destruct (next_answer _) as [a2 rest2]. simpl.
      now rewrite String.eqb_refl.
    + split; [reflexivity|].
      intros total' current'. now apply cb_unchanged.
Qed.

(** C10.  When the write of the log line fails, the callback still sets
    [prevWritten] to the current count before it returns the wrapped
    error: the log holds what it held, and a later invocation with that
    count writes nothing, so the line is lost and not written again. *)
Theorem cb_failed_line_is_not_retried :
  forall (c : Closure) (total written current : Z) (s : OS) (e : error)
         r c1 s1 t1,
    cb c total written current s = ((r, c1), s1, t1) ->
    written <> prevWritten c ->
    first_answer s = Some e ->
    r = wrapProgressError (Some e) (event c) (logPath c)
    /\ prevWritten c1 = written
    /\ disk s1 = disk s
    /\ (forall total' current',
          cb c1 total' written current' s1 = ((None, c1), s1, [])).
Proof.
  intros c total written current s e r c1 s1 t1 H Hneq Hans.
  rewrite cb_changed in H by exact Hneq.
  injection H as <- <- <- <-.
  split; [now rewrite Hans|]. split; [reflexivity|]. split.
  - unfold File_Sync, File_Write, first_answer in *.
    destruct (next_answer s) as [a rest]. simpl in Hans. subst a. simpl.
    destruct (next_answer _) as [a2 rest2]. reflexivity.
  - intros total' current'. now apply cb_unchanged.
Qed.

(** C8.  When the configured log destination is not empty and not an
    absolute path, and the event and the filename are not empty,
    [CopyCallbackFile] returns the configuration error at once: it has
    made no call into the file system and left everything as it was. *)
Theorem CopyCallbackFile_relative_path_is_error :
  forall (event filename : string) (index totalFiles : Z) (s : OS),
    environ s "GIT_LFS_PROGRESS" <> EmptyString ->
    IsAbs (environ s "GIT_LFS_PROGRESS") = false ->
    filename <> EmptyString ->
    event <> EmptyString ->
    CopyCallbackFile event filename index totalFiles s
    = ((None, None,
        Some (ErrMsg "GIT_LFS_PROGRESS must be an absolute path")),
       s, []).
Proof.
  intros event filename index totalFiles s Hpath Habs Hfile Hevent.
  unfold CopyCallbackFile, bind, Getenv.
  rewrite (len_nonzero _ Hpath), (len_nonzero _ Hfile), (len_nonzero _ Hevent).
  simpl. rewrite Habs. reflexivity.
Qed.

(** C9.  The check for empty inputs comes first: when the configured log
    path, the event or the filename is empty, [CopyCallbackFile] returns
    no callback, no file and no error, whether or not the configured path
    is absolute. *)
Theorem CopyCallbackFile_empty_input_is_silent :
  forall (event filename : string) (index totalFiles : Z) (s : OS),
    environ s "GIT_LFS_PROGRESS" = EmptyString
    \/ filename = EmptyString \/ event = EmptyString ->
    CopyCallbackFile event filename index totalFiles s
    = ((None, None, None), s, []).
Proof.
  intros event filename index totalFiles s H.
  unfold CopyCallbackFile, bind, Getenv.
  assert (E : (len (environ s "GIT_LFS_PROGRESS") =? 0)
              || (len filename =? 0) || (len event =? 0) = true).
  { destruct H as [H|[H|H]]; apply len_zero in H; rewrite H;
      rewrite ?orb_true_r; reflexivity. }
  rewrite E. reflexivity.
Qed.

End LogFacts.

(** * Properties of the include/exclude filter *)

Section FilterFacts.

Import PathFilter.

Context {fp : Filepath}.

(** The loop over the include patterns looks for a pattern that matches in
    one of the three ways. *)
Lemma include_loop_existsb (filename : string) (includePaths : list string) :
  include_loop filename (Clean filename) includePaths false
  = existsb (fun inc => pattern_matches inc filename) includePaths.
Proof.
  induction includePaths as [|inc rest IH]; simpl; auto.
  rewrite <- IH. unfold pattern_matches.
  destruct (fst (Match inc filename)); simpl; auto.
  destruct IsWindows; simpl.
  - destruct (fst (Match inc (Clean filename))); simpl; auto.
    destruct (HasPrefix _ _); auto.
  - destruct (HasPrefix _ _); auto.
Qed.

(** The loop over the exclude patterns runs to its end when no pattern
    matches in one of the three ways. *)
Lemma exclude_loop_existsb (filename : string) (excludePaths : list string) :
  exclude_loop filename (Clean filename) excludePaths
  = negb (existsb (fun ex => pattern_matches ex filename) excludePaths).
Proof.
  induction excludePaths as [|ex rest IH]; simpl; auto.
  rewrite IH. unfold pattern_matches.
  destruct (fst (Match ex filename)); simpl; auto.
  destruct IsWindows; simpl.
  - destruct (fst (Match ex (Clean filename))); simpl; auto.
    destruct (HasPrefix _ _); auto.
  - destruct (HasPrefix _ _); auto.
Qed.

(** The decision of the filter. *)
Lemma filter_decision (filename : string)
    (includePaths excludePaths : list string) :
  FilenamePassesIncludeExcludeFilter filename includePaths excludePaths
  = (match includePaths with
     | [] => true
     | _ => existsb (fun inc => pattern_matches inc filename) includePaths
     end
     && negb (existsb (fun ex => pattern_matches ex filename) excludePaths)).
Proof.
  unfold FilenamePassesIncludeExcludeFilter.
  rewrite include_loop_existsb, exclude_loop_existsb.
  set (bi := existsb (fun inc => pattern_matches inc filename) includePaths).
  set (be := existsb (fun ex => pattern_matches ex filename) excludePaths).
  assert (Hbe : excludePaths = [] -> be = false) by (intros ->; reflexivity).
  clearbody bi be.
  destruct includePaths as [|inc incs]; destruct excludePaths as [|ex excs];
    simpl; try rewrite (Hbe eq_refl); destruct bi; destruct be; reflexivity.
Qed.


(** C7.  A pattern counts as matching whenever the cleaned path begins
    with the pattern followed by the separator; the code does not look
    for wildcards in it, so this holds for a pattern without one.  As an
    include pattern it admits the path unless an exclude pattern matches;
    as an exclude pattern it rejects the path. *)
Theorem directory_pattern_matches_below :
  forall (filename pattern : string),
    HasPrefix (Clean filename) (pattern ++ string_of_byte Separator) = true ->
    pattern_matches pattern filename = true
    /\ (forall includePaths excludePaths,
          In pattern includePaths ->
          (forall ex, In ex excludePaths ->
                      pattern_matches ex filename = false) ->
          FilenamePassesIncludeExcludeFilter filename includePaths
            excludePaths = true)
    /\ (forall includePaths excludePaths,
          In pattern excludePaths ->
          FilenamePassesIncludeExcludeFilter filename includePaths
            excludePaths = false).
Proof.
  intros filename pattern Hpre.
  assert (Hm : pattern_matches pattern filename = true).
  { unfold pattern_matches. rewrite Hpre. apply orb_true_r. }
  split; [exact Hm|]. split.
  - intros includePaths excludePaths Hin Hex.
    rewrite filter_decision.
    assert (Ei : existsb (fun inc => pattern_matches inc filename)
                   includePaths = true).
    { apply existsb_exists. exists pattern. auto. }
    assert (Ee : existsb (fun ex => pattern_matches ex filename)
                   excludePaths = false).
    { destruct (existsb _ excludePaths) eqn:E; auto.
      apply existsb_exists in E. destruct E as (ex & Hin' & Hm').
      rewrite (Hex ex Hin') in Hm'. discriminate. }
    rewrite Ei, Ee. destruct includePaths; reflexivity.
  - intros includePaths excludePaths Hin.
    rewrite filter_decision.
    assert (E : existsb (fun ex => pattern_matches ex filename) excludePaths
                = true).
    { apply existsb_exists. exists pattern. auto. }
    rewrite E. apply andb_false_r.
Qed.

End FilterFacts.

(** * The properties on the samples *)

Section OnSamples.

Import Progress ProgressLog PathFilter Samples.

Local Open Scope string_scope.

(** The factory on a POSIX platform returns the sample closure. *)
Example CopyCallbackFile_download :
  CopyCallbackFile (fp := Posix.filepath) "download" "path/to/file.bin" 2 5
    (progress_os progress_log [])
  = ((Some download_closure, Some {| Name := progress_log |}, None),
     progress_os progress_log [],
     [SysMkdirAll "/var/log/lfs" 493;
      SysOpenFile progress_log [O_WRONLY; O_CREATE; O_APPEND] 438]).
Proof. reflexivity. Qed.

(** The line of the specification's example. *)
Example progress_line_example :
  progress_line "download" 2 5 4096 10240 "path/to/file.bin"
  = "download 2/5 4096/10240 path/to/file.bin" ++ String (ascii_of_nat 10) "".
Proof. reflexivity. Qed.

(** A copy of four bytes, no byte and three bytes with the log callback
    leaves two lines in the log: the read of no byte adds none. *)
Example CopyWithCallback_logs_progress :
  let '(res, s', _) :=
    CopyWithCallback discard 7 (Some as_CopyCallback)
      (mkWorld [(4, None); (0, None); (3, None)]
         (download_closure, progress_os progress_log [], []) tt) in
  res = Some (7, None)
  /\ disk (snd (fst (cbst s'))) progress_log
     = "download 2/5 4/7 path/to/file.bin" ++ String (ascii_of_nat 10) ""
       ++ "download 2/5 7/7 path/to/file.bin" ++ String (ascii_of_nat 10) "".
Proof. split; reflexivity. Qed.

(** C1, as stated, fails: the reader returns four bytes, then five bytes
    together with [EOF].  The copy takes both reads and copies nine bytes,
    and the callback is invoked for the first read only, so its calls are
    not one triple for every read. *)
Lemma callback_skips_read_with_error :
  CopyWithCallback discard 9 (Some keep_calls) bytes_with_eof
  = (Some (9, None), mkWorld [] [(9, 4, 4)] tt,
     [EvRead 4 None; EvCallback 9 4 4; EvWrite 4;
      EvRead 5 (Some EOF); EvWrite 5])
  /\ triples_every_read 9 0 (src bytes_with_eof) = [(9, 4, 4); (9, 9, 5)]
  /\ calls_of (snd (CopyWithCallback discard 9 (Some keep_calls)
                      bytes_with_eof))
     <> triples_every_read 9 0 (src bytes_with_eof).
Proof.
  split; [reflexivity|]. split; [reflexivity|].
  vm_compute. discriminate.
Qed.

Lemma CopyWithCallback_reports_reads_without_error_witness :
  counts_nonneg (src bytes_with_eof)
  /\ sum_bytes (src bytes_with_eof) < 2 ^ 63
  /\ exists res w' s' t,
       io_Copy discard Read (mkCallbackReader (Some keep_calls) 9 0)
         bytes_with_eof
       = ((Some res, w'), s', t)
       /\ CopyWithCallback discard 9 (Some keep_calls) bytes_with_eof
          = (Some res, s', t)
       /\ issued_from (reads_of t) (src bytes_with_eof) (src s')
       /\ ReadSize w' = sum_bytes (reads_of t)
       /\ calls_of t = triples_good_reads 9 0 (reads_of t)
       /\ (src s' = [] ->
           ReadSize w' = sum_bytes (src bytes_with_eof)
           /\ calls_of t = triples_good_reads 9 0 (src bytes_with_eof)).
Proof.
  assert (H1 : counts_nonneg (src bytes_with_eof)).
  { repeat constructor; simpl; discriminate. }
  assert (H2 : sum_bytes (src bytes_with_eof) < 2 ^ 63) by reflexivity.
  split; [exact H1|]. split; [exact H2|].
  exact (CopyWithCallback_reports_reads_without_error _ _ discard 9
           keep_calls bytes_with_eof H1 H2).
Defined.

Lemma ReadSize_is_sum_of_returned_counts_witness :
  exists rs w' s' t,
    read_many 3 (mkCallbackReader (Some keep_calls) 7 0) two_chunks
    = ((rs, w'), s', t)
    /\ rs = [(4, None); (3, None); (0, Some EOF)]
    /\ List.length rs = 3%nat
    /\ ReadSize w' = 0 + sum_bytes rs
    /\ 0 <= ReadSize w'
    /\ map fst (reads_of t) = map fst rs
    /\ calls_of t = triples_good_reads 7 0 (reads_of t).
Proof.
  do 4 eexists. split; [reflexivity|]. split; [reflexivity|].
  apply (ReadSize_is_sum_of_returned_counts _ _ 3
           (mkCallbackReader (Some keep_calls) 7 0) two_chunks _ _ _ _
           eq_refl).
  - repeat constructor; simpl; discriminate.
  - simpl. discriminate.
  - reflexivity.
Defined.

Lemma callback_failure_is_read_failure_witness :
  (exists w1 s1,
      Read (mkCallbackReader (Some (cancel_after 3)) 7 0) two_chunks
      = (((4, Some (ErrMsg "cancelled")), w1), s1,
         [EvRead 4 None; EvCallback 7 (0 + 4) 4])
      /\ ReadSize w1 = 0 + 4
      /\ src s1 = [(3, None)])
  /\ (exists res w' s' t,
        copy_loop discard Read 3 (mkCallbackReader (Some (cancel_after 3)) 7 0)
          0 two_chunks
        = ((Some res, w'), s', t)
        /\ reads_of t = [(4, None)]
        /\ calls_of t = [(7, 0 + 4, 4)]
        /\ src s' = [(3, None)]
        /\ ReadSize w' = 0 + 4
        /\ (ErrMsg "cancelled" <> EOF -> snd res <> None)).
Proof.
  apply (callback_failure_is_read_failure _ _ discard
           (mkCallbackReader (Some (cancel_after 3)) 7 0) two_chunks
           4 [(3, None)] (cancel_after 3) (ErrMsg "cancelled")
           [(7, 4, 4)] 2 0).
  - reflexivity.
  - reflexivity.
  - discriminate.
  - split; [discriminate | reflexivity].
  - reflexivity.
Defined.

(** C2, as stated, fails: the write of the line succeeds and [Sync]
    returns an error; the callback returns no error. *)
Lemma cb_returns_nil_when_sync_fails :
  fst (fst (File_Sync (file download_closure)
              (snd (fst (File_Write (file download_closure)
                           (progress_line "download" 2 5 50 100
                              "path/to/file.bin")
                           sync_fails)))))
  = Some EIO
  /\ snd (cb download_closure 100 50 50 sync_fails)
     = [SysWrite progress_log
          (progress_line "download" 2 5 50 100 "path/to/file.bin");
        SysSync progress_log]
  /\ fst (fst (fst (cb download_closure 100 50 50 sync_fails))) = None
  /\ fst (fst (fst (cb download_closure 100 50 50 sync_fails)))
     <> wrapProgressError (Some EIO) "download" progress_log.
Proof.
  split; [reflexivity|]. split; [reflexivity|]. split; [reflexivity|].
  vm_compute. discriminate.
Qed.

Lemma cb_write_failure_is_wrapped_witness :
  50 <> prevWritten download_closure
  /\ first_answer (progress_os progress_log [Some EIO]) = Some EIO
  /\ fst (fst (fst (cb download_closure 100 50 50
                      (progress_os progress_log [Some EIO]))))
     = Some (ErrMsg ("Error writing Git LFS " ++ "download"
                     ++ " progress to " ++ progress_log ++ ": "
                     ++ "input/output error")).
Proof.
  assert (H1 : 50 <> prevWritten download_closure) by discriminate.
  split; [exact H1|]. split; [reflexivity|].
  exact (cb_write_failure_is_wrapped download_closure 100 50 50
           (progress_os progress_log [Some EIO]) EIO H1 eq_refl).
Defined.

Lemma cb_writes_one_line_per_count_witness :
  exists r c1 s1 t1,
    cb download_closure 100 50 50 (progress_os progress_log [])
    = ((r, c1), s1, t1)
    /\ t1 = [SysWrite progress_log
               ("download 2/5 50/100 path/to/file.bin"
                ++ String (ascii_of_nat 10) "");
             SysSync progress_log]
    /\ disk s1 progress_log
       = "download 2/5 50/100 path/to/file.bin" ++ String (ascii_of_nat 10) ""
    /\ prevWritten c1 = 50
    /\ cb c1 100 50 0 s1 = ((None, c1), s1, []).
Proof.
  do 4 eexists. split; [reflexivity|].
  destruct (cb_writes_one_line_per_count download_closure 100 50 50
              (progress_os progress_log []) _ _ _ _ eq_refl)
    as (_ & Hchanged & Hprev & Hnext).
  assert (Hneq : 50 <> prevWritten download_closure) by discriminate.
  destruct (Hchanged Hneq) as (Ht & Hok).
  destruct (Hok eq_refl) as (_ & Hdisk).
  split; [exact Ht|]. split; [exact Hdisk|]. split; [exact Hprev|].
  exact (Hnext 100 0).
Defined.

Lemma cb_failed_line_is_not_retried_witness :
  exists r c1 s1 t1,
    cb download_closure 100 50 50 (progress_os progress_log [Some EIO])
    = ((r, c1), s1, t1)
    /\ 50 <> prevWritten download_closure
    /\ first_answer (progress_os progress_log [Some EIO]) = Some EIO
    /\ r = wrapProgressError (Some EIO) "download" progress_log
    /\ prevWritten c1 = 50
    /\ disk s1 = disk (progress_os progress_log [Some EIO])
    /\ (forall total' current',
          cb c1 total' 50 current' s1 = ((None, c1), s1, [])).
Proof.
  assert (Hneq : 50 <> prevWritten download_closure) by discriminate.
  do 4 eexists. split; [reflexivity|]. split; [exact Hneq|].
  split; [reflexivity|].
  exact (cb_failed_line_is_not_retried download_closure 100 50 50
           (progress_os progress_log [Some EIO]) EIO _ _ _ _
           eq_refl Hneq eq_refl).
Defined.

Lemma CopyCallbackFile_relative_path_is_error_witness :
  environ (progress_os "lfs/progress.log" []) "GIT_LFS_PROGRESS" <> ""
  /\ IsAbs (Filepath := Posix.filepath)
       (environ (progress_os "lfs/progress.log" []) "GIT_LFS_PROGRESS")
     = false
  /\ CopyCallbackFile (fp := Posix.filepath) "download" "path/to/file.bin"
       2 5 (progress_os "lfs/progress.log" [])
     = ((None, None,
         Some (ErrMsg "GIT_LFS_PROGRESS must be an absolute path")),
        progress_os "lfs/progress.log" [], []).
Proof.
  assert (H1 : environ (progress_os "lfs/progress.log" [])
                 "GIT_LFS_PROGRESS" <> "") by discriminate.
  assert (H2 : "path/to/file.bin" <> "") by discriminate.
  assert (H3 : "download" <> "") by discriminate.
  split; [exact H1|]. split; [reflexivity|].
  exact (CopyCallbackFile_relative_path_is_error (fp := Posix.filepath)
           "download" "path/to/file.bin" 2 5
           (progress_os "lfs/progress.log" []) H1 eq_refl H2 H3).
Defined.

Lemma CopyCallbackFile_empty_input_is_silent_witness :
  IsAbs (Filepath := Posix.filepath)
    (environ (progress_os "lfs/progress.log" []) "GIT_LFS_PROGRESS")
  = false
  /\ CopyCallbackFile (fp := Posix.filepath) "" "path/to/file.bin" 2 5
       (progress_os "lfs/progress.log" [])
     = ((None, None, None), progress_os "lfs/progress.log" [], []).
Proof.
  split; [reflexivity|].
  apply (CopyCallbackFile_empty_input_is_silent (fp := Posix.filepath)
           "" "path/to/file.bin" 2 5 (progress_os "lfs/progress.log" [])).
  right. right. reflexivity.
Defined.


Lemma directory_pattern_matches_below_witness :
  HasPrefix (Clean (Filepath := Posix.filepath) "docs/sub/file.txt")
    ("docs" ++ string_of_byte (Separator (Filepath := Posix.filepath)))
  = true
  /\ FilenamePassesIncludeExcludeFilter (fp := Posix.filepath)
       "docs/sub/file.txt" ["docs"] [] = true
  /\ FilenamePassesIncludeExcludeFilter (fp := Posix.filepath)
       "docs/sub/file.txt" [] ["docs"] = false.
Proof.
  split; [reflexivity|].
  destruct (directory_pattern_matches_below (fp := Posix.filepath)
              "docs/sub/file.txt" "docs" eq_refl) as (_ & Hinc & Hexc).
  split.
  - apply (Hinc ["docs"] []).
    + left. reflexivity.
    + intros ex [].
  - apply (Hexc [] ["docs"]). left. reflexivity.
Defined.

End OnSamples.

(** * Properties of whole copies *)

Section CopyRunFacts.

Import Progress CopyRuns.

Variables CbState WrState : Type.
Variable dst_Write : Z -> WrState -> (Z * option error) * WrState.

(** More of one call of [Read]: the callback state, and what is returned
    when no callback failure can come in. *)
Lemma Read_more_inv (w : CallbackReader CbState) (s : World CbState WrState)
    res w1 s1 t1 :
  Read w s = ((res, w1), s1, t1) ->
  without_callbacks t1 = [EvRead (fst (next_read s)) (snd (next_read s))]
  /\ cbst s1 = match C w with
               | Some cb => cb_state_after cb (calls_of t1) (cbst s)
               | None => cbst s
               end
  /\ (quiet w -> res = next_read s)
  /\ (forall e, snd (next_read s) = Some e ->
                snd res = Some e /\ calls_of t1 = [] /\ cbst s1 = cbst s)
  /\ (C w = None -> res = next_read s /\ calls_of t1 = []).
Proof.
  unfold Read, bind, Reader_Read, next_read, invoke, ret, quiet.
  destruct (src s) as [|[n err] rest] eqn:Es; simpl.
  - intros [= <- <- <- <-]. simpl.
    destruct (C w); repeat split; auto; congruence.
  - set (acc := if 0 <? n then wrap64 (ReadSize w + n) else ReadSize w).
    assert (Hacc : ReadSize (if 0 <? n
                             then set_ReadSize w (wrap64 (ReadSize w + n))
                             else w) = acc)
      by (unfold acc; destruct (0 <? n); reflexivity).
    assert (HC : C (if 0 <? n
                    then set_ReadSize w (wrap64 (ReadSize w + n))
                    else w) = C w)
      by (destruct (0 <? n); reflexivity).
    assert (HT : TotalSize (if 0 <? n
                            then set_ReadSize w (wrap64 (ReadSize w + n))
                            else w) = TotalSize w)
      by (destruct (0 <? n); reflexivity).
    rewrite HC, HT, Hacc.
    destruct err as [e|]; [|destruct (C w) as [cb|] eqn:Ec].
    + intros [= <- <- <- <-]. simpl.
      destruct (C w); repeat split; auto; congruence.
    + simpl. destruct (cb (TotalSize w) acc n (cbst s)) as [e' c'] eqn:Ecb.
      intros [= <- <- <- <-]. simpl. unfold cb_state_after. simpl.
      rewrite Ecb. simpl.
      split; [reflexivity|]. split; [reflexivity|]. split.
      * intros Hq. specialize (Hq cb eq_refl (TotalSize w) acc n (cbst s)).
        rewrite Ecb in Hq. simpl in Hq. now subst e'.
      * split; [intros e0 He0; discriminate|intros Hnone; discriminate].
    + intros [= <- <- <- <-]. simpl.
      repeat split; auto; intros e0 He0; discriminate.
Qed.



(** The write of the loop depends on the writer only, and changes the
    writer only. *)
Lemma copy_write_same (nr written : Z) (s p : World CbState WrState) :
  dst s = dst p ->
  exists res s1 p1 t1,
    (if 0 <? nr then copy_write dst_Write nr written
     else ret (written, None)) s = (res, s1, t1)
    /\ (if 0 <? nr then copy_write dst_Write nr written
        else ret (written, None)) p = (res, p1, t1)
    /\ without_callbacks t1 = t1 /\ calls_of t1 = []
    /\ src s1 = src s /\ cbst s1 = cbst s
    /\ src p1 = src p /\ cbst p1 = cbst p
    /\ dst s1 = dst p1.
Proof.
  intros Hd. destruct (0 <? nr).
  - unfold copy_write, bind, Writer_Write, ret. rewrite Hd.
    destruct (dst_Write nr (dst p)) as [[nw [e|]] d]; simpl.
    + do 4 eexists. repeat split.
    + destruct (nr =? nw); do 4 eexists; repeat split.
  - unfold ret. do 4 eexists. repeat split; auto.
Qed.



(** One call of [Read] when the callback cannot fail on the state it is
    in. *)
Lemma Read_quiet_on (Inv : CbState -> Prop) (w : CallbackReader CbState)
    (s : World CbState WrState) res w1 s1 t1 :
  Read w s = ((res, w1), s1, t1) ->
  quiet_on Inv w -> Inv (cbst s) ->
  res = next_read s /\ Inv (cbst s1).
Proof.
  unfold Read, bind, Reader_Read, next_read, invoke, ret, quiet_on.
  destruct (src s) as [|[n err] rest] eqn:Es; simpl.
  - intros [= <- <- <- <-] _ Hinv. auto.
  - set (w0 := if 0 <? n then set_ReadSize w (wrap64 (ReadSize w + n))
               else w).
    assert (HC : C w0 = C w) by (unfold w0; destruct (0 <? n); reflexivity).
    rewrite HC.
    destruct err as [e|]; [|destruct (C w) as [cb|] eqn:Ec].
    + intros [= <- <- <- <-] _ Hinv. auto.
    + simpl.
      destruct (cb (TotalSize w0) (ReadSize w0) n (cbst s)) as [e' c'] eqn:Ecb.
      intros [= <- <- <- <-] Hq Hinv. simpl.
      destruct (Hq cb eq_refl (TotalSize w0) (ReadSize w0) n (cbst s) Hinv)
        as [H1 H2].
      rewrite Ecb in H1, H2. simpl in H1, H2. now subst e'.
    + intros [= <- <- <- <-] _ Hinv. auto.
Qed.

(** The write of the loop with a writer that takes everything. *)
Lemma copy_write_all (nr written : Z) (s : World CbState WrState)
    res s1 t1 :
  writes_all dst_Write ->
  0 <= nr -> int64_range (written + nr) ->
  (if 0 <? nr then copy_write dst_Write nr written else ret (written, None)) s
  = (res, s1, t1) ->
  res = (written + nr, None)
  /\ t1 = (if 0 <? nr then [EvWrite nr] else [])
  /\ src s1 = src s /\ cbst s1 = cbst s.
Proof.
  intros Hall Hnr Hrange. destruct (0 <? nr) eqn:En.
  - unfold copy_write, bind, Writer_Write, ret.
    specialize (Hall nr (dst s)).
    destruct (dst_Write nr (dst s)) as [[nw ew] d]. simpl in Hall.
    injection Hall as -> ->. simpl. rewrite En, Z.eqb_refl.
    rewrite wrap64_small by exact Hrange.
    intros [= <- <- <-]. auto.
  - apply Z.ltb_ge in En. assert (nr = 0) by lia. subst nr.
    unfold ret. intros [= <- <- <-]. rewrite Z.add_0_r. auto.
Qed.

Lemma up_to_first_error_sum (rs : list ReadResult) :
  counts_nonneg rs ->
  counts_nonneg (up_to_first_error (answers_and_end rs))
  /\ 0 <= sum_bytes (up_to_first_error (answers_and_end rs)) <= sum_bytes rs.
Proof.
  unfold answers_and_end.
  induction 1 as [|[n [e|]] rs Hn Hrs IH]; simpl in *.
  - split; [repeat constructor; simpl; lia|lia].
  - pose proof (sum_bytes_nonneg rs Hrs).
    split; [repeat constructor; simpl; lia|lia].
  - destruct IH as [IH1 IH2]. split; [constructor; auto|lia].
Qed.

(** With a writer that takes everything and a callback that never fails,
    the loop goes on to the first read with an error. *)
Lemma copy_loop_to_first_error (Inv : CbState -> Prop) (fuel : nat) :
  forall (w : CallbackReader CbState) (written : Z)
         (s : World CbState WrState),
    writes_all dst_Write -> quiet_on Inv w -> Inv (cbst s) ->
    counts_nonneg (src s) ->
    0 <= written -> written + sum_bytes (src s) < 2 ^ 63 ->
    (List.length (src s) < fuel)%nat ->
    exists w' s' t,
      copy_loop dst_Write Read fuel w written s
      = ((Some (written
                + sum_bytes (up_to_first_error (answers_and_end (src s))),
                copy_error
                  (first_error
                     (up_to_first_error (answers_and_end (src s))))),
          w'), s', t)
      /\ reads_of t = up_to_first_error (answers_and_end (src s)).
Proof.
  induction fuel as [|fuel IH];
    intros w written s Hall Hq Hinv Hnn Hw Hsum Hlen; [lia|].
  simpl. unfold bind at 1.
  destruct (Read w s) as [[[res w1] s1] t1] eqn:HR.
  pose proof (Read_inv _ _ _ _ _ _ _ _ HR)
    as (_ & HC & _ & _ & Hr1 & _ & Hs1 & _ & _).
  destruct (Read_quiet_on Inv _ _ _ _ _ _ HR Hq Hinv) as [Hres Hinv1].
  clear HR. subst res.
  unfold next_read in *.
  destruct (src s) as [|[n err] rest] eqn:Es.
  - (* the reader is at its end *)
    unfold bind at 1. unfold ret. simpl.
    do 3 eexists. split; [now rewrite Z.add_0_r|].
    rewrite reads_of_app, Hr1. reflexivity.
  - inversion Hnn as [|r rs Hn Hrest]; subst. simpl in Hn, Hsum.
    pose proof (sum_bytes_nonneg rest Hrest) as Hpos.
    unfold bind at 1.
    destruct ((if 0 <? n then copy_write dst_Write n written
               else ret (written, None)) s1)
      as [[[written1 stop] s2] t2] eqn:HW.
    apply copy_write_all in HW; auto; [|unfold int64_range; lia].
    destruct HW as (Hres & Ht2 & Hs2 & Hc2). injection Hres as -> ->.
    assert (Hr2 : reads_of t2 = []) by (subst t2; destruct (0 <? n); auto).
    destruct err as [e|].
    + (* a read with an error ends the copy *)
      assert (Hend : forall x : option error,
                 exists w' s' t,
                   (Some (written + n, x), w1, s2, t1 ++ t2 ++ [])
                   = (Some (written + (n + 0), x), w', s', t)
                   /\ reads_of t = [(n, Some e)]).
      { intros x. do 3 eexists. split; [now rewrite Z.add_0_r|].
        rewrite !reads_of_app, Hr1, Hr2. reflexivity. }
      unfold answers_and_end. simpl.
      destruct e as [| |msg]; unfold ret; apply Hend.
    + (* a read without error: the loop goes on *)
      assert (Hq1 : quiet_on Inv w1)
        by (unfold quiet_on in *; rewrite HC; exact Hq).
      assert (Hsrc2 : src s2 = rest) by (rewrite Hs2, Hs1; reflexivity).
      assert (Hinv2 : Inv (cbst s2)) by (rewrite Hc2; exact Hinv1).
      destruct (IH w1 (written + n) s2 Hall Hq1 Hinv2)
        as (w' & s' & t & HL & Hr);
        try (rewrite Hsrc2; auto; simpl in Hlen; lia); [lia|].
      rewrite HL. rewrite Hsrc2 in Hr |- *.
      unfold answers_and_end. simpl.
      do 3 eexists. split.
      * unfold answers_and_end. now rewrite Z.add_assoc.
      * rewrite !reads_of_app, Hr1, Hr2, Hr. reflexivity.
Qed.

(** X2.  With a writer that takes everything and a callback that never
    fails, the copy reads up to the first read on which the source returns
    an error, or to the end of the input.  It returns the bytes of all
    these reads, those of the read with the error included, and that
    error unless it is [EOF].  [ReadSize] ends as the count returned, and
    the callback has been told of the reads without error only. *)
Theorem copy_reads_to_first_error :
  forall (T : Z) (cb : CopyCallback CbState) (s : World CbState WrState),
    writes_all dst_Write ->
    never_fails cb ->
    counts_nonneg (src s) ->
    sum_bytes (src s) < 2 ^ 63 ->
    exists w' s' t,
      io_Copy dst_Write Read (mkCallbackReader (Some cb) T 0) s
      = ((Some (sum_bytes (up_to_first_error (answers_and_end (src s))),
                copy_error
                  (first_error
                     (up_to_first_error (answers_and_end (src s))))),
          w'), s', t)
      /\ CopyWithCallback dst_Write T (Some cb) s
         = (Some (sum_bytes (up_to_first_error (answers_and_end (src s))),
                  copy_error
                    (first_error
                       (up_to_first_error (answers_and_end (src s))))),
            s', t)
      /\ reads_of t = up_to_first_error (answers_and_end (src s))
      /\ ReadSize w'
         = sum_bytes (up_to_first_error (answers_and_end (src s)))
      /\ calls_of t
         = triples_good_reads T 0
             (up_to_first_error (answers_and_end (src s))).
Proof.
  intros T cb s Hall Hnf Hnn Hsum.
  assert (Hq : quiet_on (fun _ => True) (mkCallbackReader (Some cb) T 0)).
  { intros cb0 [= <-] total soFar n st _. split; [apply Hnf|exact I]. }
  destruct (copy_loop_to_first_error (fun _ => True)
              (S (List.length (src s)))
              (mkCallbackReader (Some cb) T 0) 0 s Hall Hq I Hnn
              (Z.le_refl 0) Hsum (Nat.lt_succ_diag_r _))
    as (w' & s' & t & HL & Hr).
  simpl Z.add in HL.
  pose proof (copy_loop_inv _ _ _ _ _ _ _ _ _ _ _ HL)
    as (_ & _ & HS & Hc & _).
  simpl in HS, Hc. rewrite Hr in HS, Hc.
  destruct (up_to_first_error_sum (src s) Hnn) as [Hnn' Hle].
  exists w', s', t.
  split; [exact HL|]. split.
  { unfold CopyWithCallback, bind, io_Copy. rewrite HL. unfold ret.
    now rewrite app_nil_r. }
  split; [exact Hr|]. split.
  - rewrite HS, ReadSize_after_sum; auto; lia.
  - rewrite Hc. apply calls_after_triples; auto; lia.
Qed.


Lemma sum_positive_fst (rs1 rs2 : list ReadResult) :
  map fst rs1 = map fst rs2 -> sum_positive rs1 = sum_positive rs2.
Proof.
  revert rs2. induction rs1 as [|[n e] rs1 IH]; intros [|[n' e'] rs2];
    simpl; try discriminate; auto.
  intros [= -> H]. now rewrite (IH _ H).
Qed.

Lemma sum_positive_nonneg (rs : list ReadResult) : 0 <= sum_positive rs.
Proof. induction rs as [|[n e] rs IH]; simpl; lia. Qed.

Lemma ReadSize_after_positive (acc : Z) (rs : list ReadResult) :
  - 2 ^ 63 <= acc -> acc + sum_positive rs < 2 ^ 63 ->
  ReadSize_after acc rs = acc + sum_positive rs.
Proof.
  revert acc. induction rs as [|[n e] rs IH]; intros acc Hlo Hhi; simpl in *.
  - lia.
  - pose proof (sum_positive_nonneg rs) as Hpos.
    destruct (0 <? n) eqn:En.
    + apply Z.ltb_lt in En.
      rewrite wrap64_small by (unfold int64_range; lia).
      rewrite IH by lia. lia.
    + apply Z.ltb_ge in En. rewrite IH by lia. lia.
Qed.

(** X4.  Only the counts above zero are added to [ReadSize]: a read that
    returns no byte, or a count below zero, leaves it as it was.  After
    any number of reads [ReadSize] has grown by the sum of the counts
    above zero, so it has not decreased, as long as that sum stays inside
    [int64]. *)
Theorem ReadSize_adds_counts_above_zero :
  forall (n : nat) (w : CallbackReader CbState) (s : World CbState WrState)
         rs w' s' t,
    read_many n w s = ((rs, w'), s', t) ->
    - 2 ^ 63 <= ReadSize w ->
    ReadSize w + sum_positive rs < 2 ^ 63 ->
    ReadSize w' = ReadSize w + sum_positive rs
    /\ ReadSize w <= ReadSize w'.
Proof.
  intros n w s rs w' s' t HM Hlo Hhi.
  apply read_many_inv in HM.
  destruct HM as (_ & Hfst & _ & _ & HS & _).
  rewrite (sum_positive_fst _ _ Hfst) in Hhi |- *.
  rewrite HS, ReadSize_after_positive by assumption.
  pose proof (sum_positive_nonneg (reads_of t)). lia.
Qed.

(** X5.  One call of [Read] makes one call of the underlying [Read] and
    returns its count unchanged.  When the underlying read returns an
    error, or when the reader has no callback, [Read] returns what the
    underlying read returned and invokes no callback; in no case does it
    invoke the callback more than once. *)
Theorem Read_passes_on_one_underlying_read :
  forall (w : CallbackReader CbState) (s : World CbState WrState)
         res w1 s1 t1,
    Read w s = ((res, w1), s1, t1) ->
    reads_of t1 = [next_read s]
    /\ fst res = fst (next_read s)
    /\ src s1 = tl (src s)
    /\ (List.length (calls_of t1) <= 1)%nat
    /\ (snd (next_read s) <> None \/ C w = None ->
        res = next_read s /\ calls_of t1 = [] /\ cbst s1 = cbst s).
Proof.
  intros w s res w1 s1 t1 HR.
  pose proof (Read_inv _ _ _ _ _ _ _ _ HR)
    as (Hn & _ & _ & _ & Hr & Hc & Hsrc & _ & _).
  apply Read_more_inv in HR. destruct HR as (_ & Hst & _ & Herr & Hnone).
  split; [exact Hr|]. split; [exact Hn|]. split; [exact Hsrc|]. split.
  - rewrite Hc. destruct (C w); [|simpl; lia].
    destruct (next_read s) as [k [e|]]; simpl; lia.
  - intros [He|Hc0].
    + destruct (snd (next_read s)) as [e|] eqn:E; [|congruence].
      destruct (Herr e eq_refl) as (H1 & H2 & H3).
      split; [|auto]. destruct res as [k e']. destruct (next_read s).
      simpl in *. congruence.
    + destruct (Hnone Hc0) as [H1 H2]. split; [exact H1|]. split; [exact H2|].
      now rewrite Hc0 in Hst.
Qed.

(** The state of the callback after the loop is its state after the
    invocations of the loop, in their order. *)
Lemma copy_loop_cb_state (cb : CopyCallback CbState) (fuel : nat) :
  forall (w : CallbackReader CbState) (written : Z)
         (s : World CbState WrState) res w' s' t,
    C w = Some cb ->
    copy_loop dst_Write Read fuel w written s = ((res, w'), s', t) ->
    cbst s' = cb_state_after cb (calls_of t) (cbst s).
Proof.
  induction fuel as [|fuel IH]; intros w written s res w' s' t Ec; simpl.
  - unfold ret. intros [= <- <- <- <-]. reflexivity.
  - unfold bind at 1.
    destruct (Read w s) as [[[[nr er] w1] s1] t1] eqn:HR.
    pose proof (Read_inv _ _ _ _ _ _ _ _ HR) as (_ & HC & _).
    apply Read_more_inv in HR. destruct HR as (_ & Hst & _).
    rewrite Ec in Hst.
    destruct (copy_write_same nr written s1 s1 eq_refl)
      as (res2 & s2 & p2 & t2 & Hw1 & _ & _ & Hc2 & _ & Hcb2 & _).
    unfold bind at 1. rewrite Hw1. destruct res2 as [written1 stop].
    assert (Hstop : forall r0 : option (Z * option error),
               (r0, w1, s2, t1 ++ t2 ++ []) = (res, w', s', t) ->
               cbst s' = cb_state_after cb (calls_of t) (cbst s)).
    { intros r0 [= <- <- <- <-].
      rewrite !calls_of_app, Hc2. simpl. rewrite app_nil_r. congruence. }
    destruct stop as [e|]; [unfold ret; apply Hstop|].
    destruct er as [[| |msg]|]; try (unfold ret; apply Hstop).
    clear Hstop.
    destruct (copy_loop dst_Write Read fuel w1 written1 s2)
      as [[[res3 w3] s3] t3] eqn:HL.
    intros [= <- <- <- <-].
    apply IH in HL; [|congruence].
    rewrite !calls_of_app, Hc2. simpl.
    unfold cb_state_after in *. rewrite fold_left_app. congruence.
Qed.

End CopyRunFacts.

(** * Properties of runs of the log callback *)

Section LogRunFacts.

Import ProgressLog LogRuns.

Local Open Scope string_scope.

Lemma string_app_assoc (a b c : string) : (a ++ b) ++ c = a ++ (b ++ c).
Proof. induction a as [|x a IH]; simpl; [reflexivity|now rewrite IH]. Qed.

Lemma string_app_empty_r (a : string) : a ++ "" = a.
Proof. induction a as [|x a IH]; simpl; [reflexivity|now rewrite IH]. Qed.

Lemma same_capture_lines (c c1 : Closure) (calls : list (Z * Z * Z)) :
  same_capture c c1 -> lines_of c1 calls = lines_of c calls.
Proof.
  intros (He & Hf & Hi & Ht & _ & _).
  induction calls as [|[[total written] current] rest IH]; simpl; auto.
  now rewrite IH, He, Hf, Hi, Ht.
Qed.

(** One invocation: what it leaves of the closure, the environment and
    the disk. *)
Lemma cb_effect (c : Closure) (total written current : Z) (s : OS)
    r c1 s1 t1 :
  cb c total written current s = ((r, c1), s1, t1) ->
  same_capture c c1
  /\ prevWritten c1 = written
  /\ environ s1 = environ s
  /\ (forall name, name <> Name (file c) -> disk s1 name = disk s name)
  /\ (exists more, disk s1 (Name (file c)) = disk s (Name (file c)) ++ more)
  /\ Forall (writes_or_syncs (Name (file c))) t1.
Proof.
  destruct (Z.eq_dec written (prevWritten c)) as [Heq|Hneq].
  - rewrite cb_unchanged by exact Heq. intros [= <- <- <- <-].
    unfold same_capture. repeat split; auto.
    exists "". now rewrite string_app_empty_r.
  - rewrite cb_changed by exact Hneq. intros [= <- <- <- <-].
    unfold same_capture. simpl.
    split; [repeat split|]. split; [reflexivity|].
    unfold File_Sync, File_Write.
    destruct (next_answer s) as [a rest]. simpl.
    destruct (next_answer _) as [a2 rest2]. simpl.
    split; [reflexivity|]. split; [|split].
    + intros name Hname. destruct a; [reflexivity|].
      apply String.eqb_neq in Hname. now rewrite Hname.
    + destruct a.
      * exists "". now rewrite string_app_empty_r.
      * rewrite String.eqb_refl. eexists. reflexivity.
    + constructor; [right; eexists; reflexivity|].
      constructor; [left; reflexivity|constructor].
Qed.

(** X6.  The callback only appends to its log: after any invocations,
    whatever the calls into the file system returned, the log begins with
    what it held before, every other file holds what it held, and the
    callback has called nothing but [Write] and [Sync] on its log.  It
    returned one result for each invocation, and [prevWritten] is the
    count of the last one. *)
Theorem log_is_append_only :
  forall (c : Closure) (calls : list (Z * Z * Z)) (s : OS) errs c1 s1 t1,
    run_cb c calls s = ((errs, c1), s1, t1) ->
    List.length errs = List.length calls
    /\ same_capture c c1
    /\ prevWritten c1 = last_count (prevWritten c) calls
    /\ environ s1 = environ s
    /\ (forall name, name <> Name (file c) -> disk s1 name = disk s name)
    /\ (exists more,
          disk s1 (Name (file c)) = disk s (Name (file c)) ++ more)
    /\ Forall (writes_or_syncs (Name (file c))) t1.
Proof.
  intros c calls. revert c.
  induction calls as [|[[total written] current] rest IH];
    intros c s errs c1 s1 t1; simpl.
  - unfold ret. intros [= <- <- <- <-].
    unfold same_capture. repeat split; auto.
    exists "". now rewrite string_app_empty_r.
  - unfold bind at 1.
    destruct (cb c total written current s) as [[[r c2] s2] t2] eqn:Hcb.
    apply cb_effect in Hcb.
    destruct Hcb as (Hcap & Hprev & Henv & Hother & (more & Hlog) & Hcalls).
    unfold bind at 1.
    destruct (run_cb c2 rest s2) as [[[errs3 c3] s3] t3] eqn:Hrun.
    apply IH in Hrun.
    destruct Hrun
      as (Hlen & Hcap3 & Hprev3 & Henv3 & Hother3 & (more3 & Hlog3) & Hcalls3).
    unfold ret. intros [= <- <- <- <-].
    assert (Hfile : file c2 = file c) by apply Hcap.
    rewrite Hfile in *.
    split; [simpl; now rewrite Hlen|]. split.
    { unfold same_capture in *. intuition congruence. }
    split; [congruence|]. split; [congruence|]. split.
    { intros name Hname. rewrite Hother3, Hother; auto. }
    split.
    { exists (more ++ more3). now rewrite Hlog3, Hlog, string_app_assoc. }
    rewrite app_nil_r. apply Forall_app. auto.
Qed.

(** One invocation when every call into the file system succeeds. *)
Lemma cb_no_failure (c : Closure) (total written current : Z) (s : OS)
    r c1 s1 t1 :
  answers s = [] ->
  cb c total written current s = ((r, c1), s1, t1) ->
  r = None /\ answers s1 = []
  /\ disk s1 (Name (file c))
     = disk s (Name (file c))
       ++ lines_of c (changed_counts (prevWritten c)
                        [(total, written, current)]).
Proof.
  intros Hans. simpl.
  destruct (Z.eq_dec written (prevWritten c)) as [Heq|Hneq].
  - rewrite cb_unchanged by exact Heq. intros [= <- <- <- <-].
    apply Z.eqb_eq in Heq. rewrite Heq. simpl.
    now rewrite string_app_empty_r.
  - rewrite cb_changed by exact Hneq. intros [= <- <- <- <-].
    apply Z.eqb_neq in Hneq. rewrite Hneq.
    unfold first_answer, File_Sync, File_Write, next_answer.
    rewrite Hans. simpl. rewrite String.eqb_refl.
    now rewrite string_app_empty_r.
Qed.

Lemma lines_of_app (c : Closure) (l1 l2 : list (Z * Z * Z)) :
  lines_of c (l1 ++ l2) = lines_of c l1 ++ lines_of c l2.
Proof.
  induction l1 as [|[[total written] current] l1 IH]; simpl; auto.
  now rewrite IH, string_app_assoc.
Qed.

(** A run when every call into the file system succeeds. *)
Lemma run_cb_no_failure (calls : list (Z * Z * Z)) :
  forall (c : Closure) (s : OS) errs c1 s1 t1,
    answers s = [] ->
    run_cb c calls s = ((errs, c1), s1, t1) ->
    Forall (fun e => e = None) errs
    /\ answers s1 = []
    /\ disk s1 (Name (file c))
       = disk s (Name (file c))
         ++ lines_of c (changed_counts (prevWritten c) calls).
Proof.
  induction calls as [|[[total written] current] rest IH];
    intros c s errs c1 s1 t1 Hans; simpl.
  - unfold ret. intros [= <- <- <- <-].
    now rewrite string_app_empty_r.
  - unfold bind at 1.
    destruct (cb c total written current s) as [[[r c2] s2] t2] eqn:Hcb.
    pose proof (cb_effect _ _ _ _ _ _ _ _ _ Hcb) as (Hcap & Hprev & _).
    apply cb_no_failure in Hcb; [|exact Hans].
    destruct Hcb as (Hr & Hans2 & Hdisk).
    unfold bind at 1.
    destruct (run_cb c2 rest s2) as [[[errs3 c3] s3] t3] eqn:Hrun.
    apply IH in Hrun; [|exact Hans2].
    destruct Hrun as (Herrs & Hans3 & Hdisk3).
    unfold ret. intros [= <- <- <- <-].
    assert (Hfile : file c2 = file c) by apply Hcap.
    rewrite Hfile, (same_capture_lines _ _ _ Hcap), Hprev in Hdisk3.
    split; [constructor; auto|]. split; [exact Hans3|].
    rewrite Hdisk3, Hdisk, string_app_assoc. simpl.
    destruct (Z.eqb_spec written (prevWritten c)) as [Heq|Hneq]; simpl.
    + now rewrite Heq.
    + now rewrite string_app_empty_r.
Qed.

(** X7.  When every call into the file system succeeds, the invocations
    of the callback return no error and append to the log one line for
    each invocation whose count differs from the count of the invocation
    before it (from [prevWritten] for the first), in the order of the
    invocations, and nothing else. *)
Theorem log_has_one_line_per_change :
  forall (c : Closure) (calls : list (Z * Z * Z)) (s : OS) errs c1 s1 t1,
    answers s = [] ->
    run_cb c calls s = ((errs, c1), s1, t1) ->
    Forall (fun e => e = None) errs
    /\ disk s1 (Name (file c))
       = disk s (Name (file c))
         ++ lines_of c (changed_counts (prevWritten c) calls).
Proof.
  intros c calls s errs c1 s1 t1 Hans Hrun.
  destruct (run_cb_no_failure calls c s errs c1 s1 t1 Hans Hrun)
    as (H1 & _ & H2).
  auto.
Qed.

End LogRunFacts.

(** * The copy with the log callback *)

Section LoggedCopyFacts.

Import Progress CopyRuns ProgressLog LogRuns.

Variable WrState : Type.
Variable dst_Write : Z -> WrState -> (Z * option error) * WrState.

(** The state that the closure works on as a [CopyCallback], after some
    invocations, is what the run of the callback leaves. *)
Lemma as_CopyCallback_run (calls : list (Z * Z * Z)) :
  forall (c : Closure) (os : OS) (log : list SysCall),
    cb_state_after as_CopyCallback calls (c, os, log)
    = (snd (fst (fst (run_cb c calls os))), snd (fst (run_cb c calls os)),
       log ++ snd (run_cb c calls os)).
Proof.
  unfold cb_state_after.
  induction calls as [|[[total written] current] rest IH]; intros c os log.
  - simpl. now rewrite app_nil_r.
  - destruct (cb c total written current os) as [[[r c2] os2] t2] eqn:Hcb.
    assert (Hstep : snd (as_CopyCallback total written current (c, os, log))
                    = (c2, os2, log ++ t2))
      by (unfold as_CopyCallback; rewrite Hcb; reflexivity).
    assert (Hrun : run_cb c ((total, written, current) :: rest) os
                   = (let '((errs3, c3), os3, t3) := run_cb c2 rest os2 in
                      ((r :: errs3, c3), os3, t2 ++ t3 ++ []))).
    { cbn [run_cb]. unfold ProgressLog.bind at 1. rewrite Hcb.
      unfold ProgressLog.bind, ProgressLog.ret.
      destruct (run_cb c2 rest os2) as [[[errs3 c3] os3] t3]. reflexivity. }
    cbn [fold_left]. rewrite Hstep, IH, Hrun.
    destruct (run_cb c2 rest os2) as [[[errs3 c3] os3] t3]. simpl.
    now rewrite app_nil_r, app_assoc.
Qed.

(** As long as every call into the file system succeeds, the closure as
    a [CopyCallback] returns no error. *)
Lemma as_CopyCallback_quiet (w : CallbackReader (Closure * OS * list SysCall)) :
  C w = Some as_CopyCallback ->
  quiet_on (fun st : Closure * OS * list SysCall =>
              answers (snd (fst st)) = []) w.
Proof.
  intros Ec cb0 Ec0 total soFar n [[c os] log] Hinv. simpl in Hinv.
  rewrite Ec in Ec0. injection Ec0 as <-.
  unfold as_CopyCallback.
  destruct (cb c total soFar n os) as [[[r c2] os2] t2] eqn:Hcb.
  apply cb_no_failure in Hcb; [|exact Hinv].
  destruct Hcb as (Hr & Hans & _). simpl. auto.
Qed.

(** Reads that all return bytes without error: the copy goes to the end
    of the input. *)
Lemma all_good_reads_end (T acc : Z) (rs : list ReadResult) :
  all_good_reads rs ->
  counts_nonneg rs
  /\ up_to_first_error (answers_and_end rs) = answers_and_end rs
  /\ first_error (answers_and_end rs) = Some EOF
  /\ sum_bytes (answers_and_end rs) = sum_bytes rs
  /\ triples_good_reads T acc (answers_and_end rs)
     = triples_every_read T acc rs
  /\ changed_counts acc (triples_every_read T acc rs)
     = triples_every_read T acc rs.
Proof.
  unfold answers_and_end. intros H. revert acc.
  induction H as [|[n e] rs [Hn He] Hrs IH]; intros acc; simpl in *.
  - repeat split; constructor.
  - subst e. destruct (IH (acc + n)) as (H1 & H2 & H3 & H4 & H5 & H6).
    rewrite H2, H3, H4, H5, H6.
    assert (E : (acc + n =? acc) = false) by (apply Z.eqb_neq; lia).
    rewrite E.
    repeat split; auto. constructor; auto. simpl. lia.
Qed.

(** X8.  A copy with the callback of [CopyCallbackFile], from a source
    whose reads all return bytes without error, into a writer that takes
    everything, with a file system that does not fail: the copy returns
    all the bytes and no error, and the log has gained exactly one line
    for every read, in read order, each with the count of the bytes read
    up to and including that read and the declared total. *)
Theorem copy_logs_one_line_per_read :
  forall (T : Z) (c : Closure) (os : OS) (log : list SysCall)
         (s : World (Closure * OS * list SysCall) WrState),
    writes_all dst_Write ->
    cbst s = (c, os, log) ->
    all_good_reads (src s) ->
    sum_bytes (src s) < 2 ^ 63 ->
    answers os = [] ->
    prevWritten c = 0 ->
    exists s' t c' os' log',
      CopyWithCallback dst_Write T (Some as_CopyCallback) s
      = (Some (sum_bytes (src s), None), s', t)
      /\ cbst s' = (c', os', log')
      /\ calls_of t = triples_every_read T 0 (src s)
      /\ disk os' (Name (file c))
         = (disk os (Name (file c))
            ++ lines_of c (triples_every_read T 0 (src s)))%string.
Proof.
  intros T c os log s Hall Hst Hgood Hsum Hans Hprev.
  destruct (all_good_reads_end T 0 (src s) Hgood)
    as (Hnn & Hup & Hfirst & Hbytes & Htriples & Hchanged).
  set (w := mkCallbackReader (Some as_CopyCallback) T 0).
  assert (Hinv : answers (snd (fst (cbst s))) = [])
    by (rewrite Hst; exact Hans).
  destruct (copy_loop_to_first_error _ _ dst_Write _
              (S (List.length (src s))) w 0 s Hall
              (as_CopyCallback_quiet w eq_refl) Hinv Hnn (Z.le_refl 0) Hsum
              (Nat.lt_succ_diag_r _))
    as (w' & s' & t & HL & Hr).
  rewrite Hup, Hfirst, Hbytes in HL. cbn [copy_error] in HL.
  rewrite Z.add_0_l in HL. rewrite Hup in Hr.
  pose proof (copy_loop_inv _ _ _ _ _ _ _ _ _ _ _ HL) as (_ & _ & _ & Hc & _).
  simpl in Hc. rewrite Hr in Hc.
  rewrite calls_after_triples in Hc;
    [|apply counts_nonneg_app; split;
      [exact Hnn|repeat constructor; simpl; lia]
     |lia|rewrite Hbytes; lia].
  fold (answers_and_end (src s)) in Hc. rewrite Htriples in Hc.
  pose proof (copy_loop_cb_state _ _ dst_Write as_CopyCallback _ w _ _ _ _ _ _
                eq_refl HL) as Hcb.
  rewrite Hst, Hc, as_CopyCallback_run in Hcb.
  destruct (run_cb c (triples_every_read T 0 (src s)) os)
    as [[[errs c1] os1] t1] eqn:Hrun.
  apply run_cb_no_failure in Hrun; [|exact Hans].
  destruct Hrun as (_ & _ & Hdisk).
  rewrite Hprev, Hchanged in Hdisk. simpl in Hcb.
  exists s', t, c1, os1, (log ++ t1).
  split.
  { unfold CopyWithCallback, Progress.bind, io_Copy. fold w. rewrite HL.
    unfold Progress.ret. now rewrite app_nil_r. }
  split; [exact Hcb|]. split; [exact Hc|exact Hdisk].
Qed.

End LoggedCopyFacts.

(** * Properties of the factory of the log callback *)

Section FactoryFacts.

Import ProgressLog LogRuns.

Context {fp : Filepath}.

Local Open Scope string_scope.

Lemma next_answer_at (s : OS) :
  next_answer s = (answer_at 0 s, tl (answers s)).
Proof. unfold next_answer, answer_at. destruct (answers s); reflexivity. Qed.

(** A write that succeeds appends; the flush after it changes no file. *)
Lemma write_then_sync_appends (f : File) (line : string) (s : OS) :
  first_answer s = None ->
  disk (snd (fst (File_Sync f (snd (fst (File_Write f line s)))))) (Name f)
  = disk s (Name f) ++ line.
Proof.
  unfold File_Sync, File_Write, first_answer. intros Hans.
  destruct (next_answer s) as [a rest]. simpl in Hans. subst a. simpl.
  destruct (next_answer _) as [a2 rest2]. simpl.
  now rewrite String.eqb_refl.
Qed.

(** The factory on an empty input, and on a relative log path. *)
Lemma factory_skips_empty_input (event filename : string)
    (index totalFiles : Z) (s : OS) :
  environ s "GIT_LFS_PROGRESS" = "" \/ filename = "" \/ event = "" ->
  CopyCallbackFile event filename index totalFiles s
  = ((None, None, None), s, []).
Proof.
  intros H. unfold CopyCallbackFile, bind, Getenv.
  assert (E : ((len (environ s "GIT_LFS_PROGRESS") =? 0)%Z
               || (len filename =? 0)%Z || (len event =? 0)%Z)%bool = true).
  { destruct H as [H|[H|H]]; apply len_zero in H; rewrite H;
      rewrite ?orb_true_r; reflexivity. }
  rewrite E. reflexivity.
Qed.

Lemma factory_rejects_relative (event filename : string)
    (index totalFiles : Z) (s : OS) :
  environ s "GIT_LFS_PROGRESS" <> "" -> filename <> "" -> event <> "" ->
  IsAbs (environ s "GIT_LFS_PROGRESS") = false ->
  CopyCallbackFile event filename index totalFiles s
  = ((None, None, Some (ErrMsg "GIT_LFS_PROGRESS must be an absolute path")),
     s, []).
Proof.
  intros Hpath Hfile Hevent Habs.
  unfold CopyCallbackFile, bind, Getenv.
  rewrite (len_nonzero _ Hpath), (len_nonzero _ Hfile), (len_nonzero _ Hevent).
  simpl. rewrite Habs. reflexivity.
Qed.

(** The factory, by the answers of the two calls it can make. *)
Lemma CopyCallbackFile_cases (event filename : string)
    (index totalFiles : Z) (s : OS) :
  let logPath := environ s "GIT_LFS_PROGRESS" in
  logPath <> "" -> filename <> "" -> event <> "" -> IsAbs logPath = true ->
  CopyCallbackFile event filename index totalFiles s
  = match answer_at 0 s with
    | Some e =>
        ((None, None, wrapProgressError (Some e) event logPath),
         {| environ := environ s; answers := tl (answers s);
            disk := disk s |},
         [SysMkdirAll (Dir logPath) perm_0755])
    | None =>
        match answer_at 1 s with
        | Some e =>
            ((None, None, wrapProgressError (Some e) event logPath),
             {| environ := environ s; answers := tl (tl (answers s));
                disk := disk s |},
             [SysMkdirAll (Dir logPath) perm_0755;
              SysOpenFile logPath append_flags perm_0666])
        | None =>
            ((Some {| event := event; filename := filename; index := index;
                      totalFiles := totalFiles; logPath := logPath;
                      file := {| Name := logPath |}; prevWritten := 0 |},
              Some {| Name := logPath |}, None),
             {| environ := environ s; answers := tl (tl (answers s));
                disk := disk s |},
             [SysMkdirAll (Dir logPath) perm_0755;
              SysOpenFile logPath append_flags perm_0666])
        end
    end.
Proof.
  intros logPath Hpath Hfile Hevent Habs. subst logPath.
  unfold CopyCallbackFile, bind, Getenv.
  rewrite (len_nonzero _ Hpath), (len_nonzero _ Hfile), (len_nonzero _ Hevent).
  simpl. rewrite Habs. simpl.
  unfold MkdirAll, OpenFile, ret, answer_at, next_answer, append_flags.
  destruct (answers s) as [|[e|] [|[e2|] rest]]; reflexivity.
Qed.

(** X9.  Whatever its inputs and whatever the file system answers,
    [CopyCallbackFile] returns a callback exactly together with the file
    it writes to and no error; an error comes with no callback and no
    file.  It writes to no file and leaves the environment as it is, and
    the only calls it can make are [MkdirAll] on the directory of the
    configured path and then [OpenFile] on that path for appending. *)
Theorem CopyCallbackFile_result_shape :
  forall (event filename : string) (index totalFiles : Z) (s : OS)
         cbo fo eo s1 t1,
    CopyCallbackFile event filename index totalFiles s
    = ((cbo, fo, eo), s1, t1) ->
    ((cbo = None /\ fo = None)
     \/ (exists c, cbo = Some c /\ fo = Some (file c) /\ eo = None
                   /\ prevWritten c = 0))
    /\ environ s1 = environ s
    /\ disk s1 = disk s
    /\ (t1 = []
        \/ t1 = [SysMkdirAll (Dir (environ s "GIT_LFS_PROGRESS")) perm_0755]
        \/ t1 = [SysMkdirAll (Dir (environ s "GIT_LFS_PROGRESS")) perm_0755;
                 SysOpenFile (environ s "GIT_LFS_PROGRESS") append_flags
                   perm_0666]).
Proof.
  intros event filename index totalFiles s cbo fo eo s1 t1.
  destruct (string_dec (environ s "GIT_LFS_PROGRESS") "") as [Hp|Hp];
    [rewrite factory_skips_empty_input by auto;
     intros [= <- <- <- <- <-]; auto 6|].
  destruct (string_dec filename "") as [Hf|Hf];
    [rewrite factory_skips_empty_input by auto;
     intros [= <- <- <- <- <-]; auto 6|].
  destruct (string_dec event "") as [He|He];
    [rewrite factory_skips_empty_input by auto;
     intros [= <- <- <- <- <-]; auto 6|].
  destruct (IsAbs (environ s "GIT_LFS_PROGRESS")) eqn:Habs.
  - rewrite CopyCallbackFile_cases by assumption.
    destruct (answer_at 0 s) as [e|]; [|destruct (answer_at 1 s) as [e|]];
      intros [= <- <- <- <- <-]; simpl; repeat split; auto.
    right. eexists. repeat split.
  - rewrite factory_rejects_relative by assumption.
    intros [= <- <- <- <- <-]. auto 6.
Qed.

(** X10.  With a log path that is absolute, an event and a filename that
    are not empty, and a file system on which [MkdirAll] and [OpenFile]
    succeed, [CopyCallbackFile] makes the directory of the log path with
    permission 0755, opens the log path write-only for appending,
    creating it with permission 0666, and returns that file with a
    callback that holds the arguments of the call and 0 as the last count
    written. *)
Theorem CopyCallbackFile_opens_log_for_appending :
  forall (event filename : string) (index totalFiles : Z) (s : OS),
    environ s "GIT_LFS_PROGRESS" <> "" ->
    filename <> "" ->
    event <> "" ->
    IsAbs (environ s "GIT_LFS_PROGRESS") = true ->
    answer_at 0 s = None ->
    answer_at 1 s = None ->
    exists c s1,
      CopyCallbackFile event filename index totalFiles s
      = ((Some c, Some (file c), None), s1,
         [SysMkdirAll (Dir (environ s "GIT_LFS_PROGRESS")) (7 * 64 + 5 * 8 + 5);
          SysOpenFile (environ s "GIT_LFS_PROGRESS")
            [O_WRONLY; O_CREATE; O_APPEND] (6 * 64 + 6 * 8 + 6)])
      /\ Name (file c) = environ s "GIT_LFS_PROGRESS"
      /\ logPath c = environ s "GIT_LFS_PROGRESS"
      /\ ProgressLog.event c = event /\ ProgressLog.filename c = filename
      /\ ProgressLog.index c = index /\ ProgressLog.totalFiles c = totalFiles
      /\ prevWritten c = 0
      /\ disk s1 = disk s
      /\ answers s1 = tl (tl (answers s)).
Proof.
  intros event filename index totalFiles s Hp Hf He Habs H0 H1.
  rewrite CopyCallbackFile_cases by assumption. rewrite H0, H1.
  exists (mkClosure event filename index totalFiles
            (environ s "GIT_LFS_PROGRESS")
            {| Name := environ s "GIT_LFS_PROGRESS" |} 0).
  eexists. split; [reflexivity|]. simpl. repeat split.
Qed.

(** X11.  When [MkdirAll] fails, [CopyCallbackFile] returns its error
    wrapped with the event and the log path, with no callback and no
    file, and does not open the log. *)
Theorem CopyCallbackFile_directory_failure :
  forall (event filename : string) (index totalFiles : Z) (s : OS)
         (e : error),
    environ s "GIT_LFS_PROGRESS" <> "" ->
    filename <> "" ->
    event <> "" ->
    IsAbs (environ s "GIT_LFS_PROGRESS") = true ->
    answer_at 0 s = Some e ->
    exists s1,
      CopyCallbackFile event filename index totalFiles s
      = ((None, None,
          Some (ErrMsg ("Error writing Git LFS " ++ event ++ " progress to "
                        ++ environ s "GIT_LFS_PROGRESS" ++ ": " ++ Error e))),
         s1,
         [SysMkdirAll (Dir (environ s "GIT_LFS_PROGRESS")) perm_0755])
      /\ disk s1 = disk s.
Proof.
  intros event filename index totalFiles s e Hp Hf He Habs H0.
  rewrite CopyCallbackFile_cases by assumption. rewrite H0.
  eexists. split; reflexivity.
Qed.

(** X12.  When the directory is made and [OpenFile] fails,
    [CopyCallbackFile] returns the error of [OpenFile] wrapped with the
    event and the log path, with no callback and no file. *)
Theorem CopyCallbackFile_open_failure :
  forall (event filename : string) (index totalFiles : Z) (s : OS)
         (e : error),
    environ s "GIT_LFS_PROGRESS" <> "" ->
    filename <> "" ->
    event <> "" ->
    IsAbs (environ s "GIT_LFS_PROGRESS") = true ->
    answer_at 0 s = None ->
    answer_at 1 s = Some e ->
    exists s1,
      CopyCallbackFile event filename index totalFiles s
      = ((None, None,
          Some (ErrMsg ("Error writing Git LFS " ++ event ++ " progress to "
                        ++ environ s "GIT_LFS_PROGRESS" ++ ": " ++ Error e))),
         s1,
         [SysMkdirAll (Dir (environ s "GIT_LFS_PROGRESS")) perm_0755;
          SysOpenFile (environ s "GIT_LFS_PROGRESS") append_flags perm_0666])
      /\ disk s1 = disk s.
Proof.
  intros event filename index totalFiles s e Hp Hf He Habs H0 H1.
  rewrite CopyCallbackFile_cases by assumption. rewrite H0, H1.
  eexists. split; reflexivity.
Qed.

(** X13.  The callback that [CopyCallbackFile] returns writes to the
    configured path: invoked with a count other than 0 on a file system
    where the write succeeds, it appends to the file at that path the
    line made of the event, index, number of files and filename that the
    factory was called with, and of the count and total of the
    invocation. *)
Theorem factory_callback_appends_to_configured_path :
  forall (event filename : string) (index totalFiles : Z) (s : OS)
         c fo s1 t1 (total written current : Z),
    CopyCallbackFile event filename index totalFiles s
    = ((Some c, fo, None), s1, t1) ->
    written <> 0 ->
    first_answer s1 = None ->
    exists c2 s2,
      cb c total written current s1
      = ((None, c2), s2,
         [SysWrite (environ s "GIT_LFS_PROGRESS")
            (progress_line event index totalFiles written total filename);
          SysSync (environ s "GIT_LFS_PROGRESS")])
      /\ disk s2 (environ s "GIT_LFS_PROGRESS")
         = disk s (environ s "GIT_LFS_PROGRESS")
           ++ progress_line event index totalFiles written total filename
      /\ prevWritten c2 = written.
Proof.
  intros event filename index totalFiles s c fo s1 t1 total written current
         HF Hw Hans.
  destruct (string_dec (environ s "GIT_LFS_PROGRESS") "") as [Hp|Hp];
    [rewrite factory_skips_empty_input in HF by auto; discriminate|].
  destruct (string_dec filename "") as [Hf|Hf];
    [rewrite factory_skips_empty_input in HF by auto; discriminate|].
  destruct (string_dec event "") as [He|He];
    [rewrite factory_skips_empty_input in HF by auto; discriminate|].
  destruct (IsAbs (environ s "GIT_LFS_PROGRESS")) eqn:Habs;
    [|rewrite factory_rejects_relative in HF by assumption; discriminate].
  rewrite CopyCallbackFile_cases in HF by assumption.
  destruct (answer_at 0 s) as [e|]; [discriminate|].
  destruct (answer_at 1 s) as [e|]; [discriminate|].
  injection HF as <- <- <- <-.
  rewrite cb_changed by (simpl; exact Hw).
  rewrite Hans. simpl.
  do 2 eexists. split; [reflexivity|]. split; [|reflexivity].
  now rewrite (write_then_sync_appends
                 {| Name := environ s "GIT_LFS_PROGRESS" |} _ _ Hans).
Qed.

End FactoryFacts.

(** * More properties of the include/exclude filter *)

Section FilterDecisionFacts.

Import PathFilter.

Context {fp : Filepath}.

Lemma existsb_matches_iff (filename : string) (patterns : list string) :
  existsb (fun p => pattern_matches p filename) patterns = true
  <-> exists p, In p patterns /\ pattern_matches p filename = true.
Proof. apply existsb_exists. Qed.

Lemma existsb_matches_none (filename : string) (patterns : list string) :
  existsb (fun p => pattern_matches p filename) patterns = false
  <-> forall p, In p patterns -> pattern_matches p filename = false.
Proof.
  split.
  - intros H p Hin. destruct (pattern_matches p filename) eqn:E; auto.
    assert (existsb (fun p => pattern_matches p filename) patterns = true)
      by (apply existsb_exists; eauto).
    congruence.
  - intros H. destruct (existsb _ patterns) eqn:E; auto.
    apply existsb_exists in E. destruct E as (p & Hin & Hm).
    rewrite (H p Hin) in Hm. discriminate.
Qed.

(** X14.  The filter admits a path exactly when the list of include
    patterns is empty or one of them matches the path, and no exclude
    pattern matches it, a pattern matching as the glob, as the glob on the
    cleaned path on Windows, or as a directory above the cleaned path.
    So a path that no include pattern of a list that is not empty matches
    is rejected whatever the exclude patterns are. *)
Theorem filter_admits_iff :
  forall (filename : string) (includePaths excludePaths : list string),
    FilenamePassesIncludeExcludeFilter filename includePaths excludePaths
    = true
    <-> (includePaths = []
         \/ exists inc, In inc includePaths
                        /\ pattern_matches inc filename = true)
        /\ (forall ex, In ex excludePaths ->
                       pattern_matches ex filename = false).
Proof.
  intros filename includePaths excludePaths.
  rewrite filter_decision, andb_true_iff, negb_true_iff.
  rewrite existsb_matches_none.
  split; intros [Hi He]; (split; [|exact He]).
  - destruct includePaths as [|inc incs]; [now left|right].
    now apply existsb_matches_iff.
  - destruct includePaths as [|inc incs]; [reflexivity|].
    destruct Hi as [Hi|Hi]; [discriminate|].
    now apply existsb_matches_iff.
Qed.

Lemma existsb_matches_perm (filename : string) (l1 l2 : list string) :
  Permutation l1 l2 ->
  existsb (fun p => pattern_matches p filename) l1
  = existsb (fun p => pattern_matches p filename) l2.
Proof.
  intros Hp.
  destruct (existsb _ l2) eqn:E2.
  - apply existsb_exists in E2. destruct E2 as (p & Hin & Hm).
    apply existsb_exists. exists p. split; [|exact Hm].
    apply Permutation_sym in Hp. now apply (Permutation_in _ Hp).
  - apply existsb_matches_none. intros p Hin.
    apply (proj1 (existsb_matches_none filename l2) E2).
    now apply (Permutation_in _ Hp).
Qed.

(** X15.  The order of the patterns in the two lists does not change the
    decision. *)
Theorem filter_ignores_pattern_order :
  forall (filename : string) (includePaths excludePaths : list string)
         (includePaths' excludePaths' : list string),
    Permutation includePaths includePaths' ->
    Permutation excludePaths excludePaths' ->
    FilenamePassesIncludeExcludeFilter filename includePaths excludePaths
    = FilenamePassesIncludeExcludeFilter filename includePaths' excludePaths'.
Proof.
  intros filename incs excs incs' excs' Hi He.
  rewrite !filter_decision.
  rewrite (existsb_matches_perm filename _ _ He).
  rewrite (existsb_matches_perm filename _ _ Hi).
  destruct incs as [|a incs]; destruct incs' as [|b incs']; auto.
  - apply Permutation_nil in Hi. discriminate.
  - apply Permutation_sym, Permutation_nil in Hi. discriminate.
Qed.

(** X16.  More exclude patterns admit no more paths: a path admitted with
    more exclude patterns is admitted with fewer. *)
Theorem more_excludes_admit_no_more :
  forall (filename : string) (includePaths excludePaths more : list string),
    FilenamePassesIncludeExcludeFilter filename includePaths
      (excludePaths ++ more) = true ->
    FilenamePassesIncludeExcludeFilter filename includePaths excludePaths
    = true.
Proof.
  intros filename incs excs more. rewrite !filter_decision.
  rewrite !existsb_app.
  rewrite !andb_true_iff, !negb_true_iff, orb_false_iff.
  intros [Hi [He _]]. auto.
Qed.

(** X17.  More include patterns in a list that is not empty reject no
    more paths: a path admitted stays admitted when include patterns are
    added.  (Adding a pattern to an empty list can reject a path, since
    an empty list admits every path.) *)
Theorem more_includes_reject_no_more :
  forall (filename : string) (includePaths excludePaths more : list string),
    includePaths <> [] ->
    FilenamePassesIncludeExcludeFilter filename includePaths excludePaths
    = true ->
    FilenamePassesIncludeExcludeFilter filename (includePaths ++ more)
      excludePaths = true.
Proof.
  intros filename incs excs more Hne. rewrite !filter_decision.
  rewrite !existsb_app, !andb_true_iff.
  intros [Hi He]. split; [|exact He].
  destruct incs as [|a incs]; [contradiction|].
  simpl in *. rewrite <- orb_assoc.
  apply orb_true_iff in Hi. destruct Hi as [Hi|Hi]; rewrite Hi;
    rewrite ?orb_true_r; reflexivity.
Qed.

End FilterDecisionFacts.

(** * The properties of whole runs on the samples *)

Section OnMoreSamples.

Import Progress CopyRuns ProgressLog LogRuns PathFilter Samples MoreSamples.

Local Open Scope string_scope.

Lemma discard_writes_all : writes_all discard.
Proof. intros n d. reflexivity. Defined.

Lemma keep_calls_never_fails : never_fails keep_calls.
Proof. intros total soFar n st. reflexivity. Defined.


Lemma copy_reads_to_first_error_witness :
  counts_nonneg (src reset_midway)
  /\ sum_bytes (src reset_midway) < 2 ^ 63
  /\ exists w' s' t,
       io_Copy discard Read (mkCallbackReader (Some keep_calls) 9 0)
         reset_midway
       = ((Some (6, Some (ErrMsg "connection reset")), w'), s', t)
       /\ CopyWithCallback discard 9 (Some keep_calls) reset_midway
          = (Some (6, Some (ErrMsg "connection reset")), s', t)
       /\ reads_of t = [(4, None); (2, Some (ErrMsg "connection reset"))]
       /\ ReadSize w' = 6
       /\ calls_of t = [(9, 4, 4)].
Proof.
  assert (H1 : counts_nonneg (src reset_midway)).
  { repeat constructor; simpl; discriminate. }
  assert (H2 : sum_bytes (src reset_midway) < 2 ^ 63) by reflexivity.
  split; [exact H1|]. split; [exact H2|].
  exact (copy_reads_to_first_error _ _ discard 9 keep_calls reset_midway
           discard_writes_all keep_calls_never_fails H1 H2).
Defined.


Lemma ReadSize_adds_counts_above_zero_witness :
  exists rs w' s' t,
    read_many 3 (mkCallbackReader (Some keep_calls) 4 0) negative_count
    = ((rs, w'), s', t)
    /\ rs = [(4, None); (-1, None); (0, None)]
    /\ ReadSize w' = 0 + 4
    /\ 0 <= ReadSize w'.
Proof.
  do 4 eexists. split; [reflexivity|]. split; [reflexivity|].
  apply (ReadSize_adds_counts_above_zero _ _ 3
           (mkCallbackReader (Some keep_calls) 4 0) negative_count _ _ _ _
           eq_refl).
  - simpl. discriminate.
  - reflexivity.
Defined.

Lemma Read_passes_on_one_underlying_read_witness :
  exists res w1 s1 t1,
    Read (mkCallbackReader (Some keep_calls) 5 0) last_bytes
    = ((res, w1), s1, t1)
    /\ reads_of t1 = [(5, Some EOF)]
    /\ fst res = 5
    /\ src s1 = []
    /\ (List.length (calls_of t1) <= 1)%nat
    /\ (snd (next_read last_bytes) <> None
        \/ C (mkCallbackReader (Some keep_calls) 5 0) = None ->
        res = (5, Some EOF) /\ calls_of t1 = [] /\ cbst s1 = []).
Proof.
  do 4 eexists. split; [reflexivity|].
  exact (Read_passes_on_one_underlying_read _ _
           (mkCallbackReader (Some keep_calls) 5 0) last_bytes _ _ _ _
           eq_refl).
Defined.

Lemma log_is_append_only_witness :
  exists errs c1 s1 t1,
    run_cb download_closure three_calls third_fails = ((errs, c1), s1, t1)
    /\ errs = [None; None;
               wrapProgressError (Some EIO) "download" progress_log]
    /\ List.length errs = List.length three_calls
    /\ same_capture download_closure c1
    /\ prevWritten c1 = 80
    /\ environ s1 = environ third_fails
    /\ (forall name, name <> progress_log ->
                     disk s1 name = disk third_fails name)
    /\ (exists more,
          disk s1 progress_log = disk third_fails progress_log ++ more)
    /\ Forall (writes_or_syncs progress_log) t1.
Proof.
  do 4 eexists. split; [reflexivity|]. split; [reflexivity|].
  exact (log_is_append_only download_closure three_calls third_fails
           _ _ _ _ eq_refl).
Defined.

Lemma log_has_one_line_per_change_witness :
  exists errs c1 s1 t1,
    answers (progress_os progress_log []) = []
    /\ run_cb download_closure three_calls (progress_os progress_log [])
       = ((errs, c1), s1, t1)
    /\ Forall (fun e => e = None) errs
    /\ disk s1 progress_log
       = "" ++ ("download 2/5 50/100 path/to/file.bin"
                ++ String (ascii_of_nat 10)
                     ("download 2/5 80/100 path/to/file.bin"
                      ++ String (ascii_of_nat 10) "")).
Proof.
  do 4 eexists. split; [reflexivity|]. split; [reflexivity|].
  exact (log_has_one_line_per_change download_closure three_calls
           (progress_os progress_log []) _ _ _ _ eq_refl eq_refl).
Defined.

Lemma all_good_logged_chunks : all_good_reads (src logged_chunks).
Proof. repeat constructor. Defined.

Lemma copy_logs_one_line_per_read_witness :
  all_good_reads (src logged_chunks)
  /\ exists s' t c' os' log',
       CopyWithCallback discard 7 (Some as_CopyCallback) logged_chunks
       = (Some (sum_bytes (src logged_chunks), None), s', t)
       /\ cbst s' = (c', os', log')
       /\ calls_of t = [(7, 4, 4); (7, 7, 3)]
       /\ disk os' progress_log
          = "" ++ ("download 2/5 4/7 path/to/file.bin"
                   ++ String (ascii_of_nat 10)
                        ("download 2/5 7/7 path/to/file.bin"
                         ++ String (ascii_of_nat 10) "")).
Proof.
  split; [exact all_good_logged_chunks|].
  exact (copy_logs_one_line_per_read unit discard 7 download_closure
           (progress_os progress_log []) [] logged_chunks
           discard_writes_all eq_refl all_good_logged_chunks eq_refl eq_refl
           eq_refl).
Defined.

Lemma CopyCallbackFile_result_shape_witness :
  exists cbo fo eo s1 t1,
    CopyCallbackFile (fp := Posix.filepath) "download" "path/to/file.bin" 2 5
      (progress_os progress_log [None; Some EIO])
    = ((cbo, fo, eo), s1, t1)
    /\ eo = wrapProgressError (Some EIO) "download" progress_log
    /\ ((cbo = None /\ fo = None)
        \/ (exists c, cbo = Some c /\ fo = Some (file c) /\ eo = None
                      /\ prevWritten c = 0))
    /\ environ s1 = environ (progress_os progress_log [None; Some EIO])
    /\ disk s1 = disk (progress_os progress_log [None; Some EIO])
    /\ (t1 = []
        \/ t1 = [SysMkdirAll "/var/log/lfs" perm_0755]
        \/ t1 = [SysMkdirAll "/var/log/lfs" perm_0755;
                 SysOpenFile progress_log append_flags perm_0666]).
Proof.
  do 5 eexists. split; [reflexivity|]. split; [reflexivity|].
  exact (CopyCallbackFile_result_shape (fp := Posix.filepath)
           "download" "path/to/file.bin" 2 5
           (progress_os progress_log [None; Some EIO]) _ _ _ _ _ eq_refl).
Defined.

Lemma download_is_configured :
  environ (progress_os progress_log []) "GIT_LFS_PROGRESS" <> ""
  /\ "path/to/file.bin" <> "" /\ "download" <> "".
Proof. repeat split; discriminate. Defined.

Lemma CopyCallbackFile_opens_log_for_appending_witness :
  exists c s1,
    CopyCallbackFile (fp := Posix.filepath) "download" "path/to/file.bin" 2 5
      (progress_os progress_log [])
    = ((Some c, Some (file c), None), s1,
       [SysMkdirAll "/var/log/lfs" 493;
        SysOpenFile progress_log [O_WRONLY; O_CREATE; O_APPEND] 438])
    /\ Name (file c) = progress_log
    /\ logPath c = progress_log
    /\ event c = "download" /\ filename c = "path/to/file.bin"
    /\ index c = 2 /\ totalFiles c = 5
    /\ prevWritten c = 0
    /\ disk s1 = disk (progress_os progress_log [])
    /\ answers s1 = [].
Proof.
  exact (CopyCallbackFile_opens_log_for_appending (fp := Posix.filepath)
           "download" "path/to/file.bin" 2 5 (progress_os progress_log [])
           (proj1 download_is_configured)
           (proj1 (proj2 download_is_configured))
           (proj2 (proj2 download_is_configured))
           eq_refl eq_refl eq_refl).
Defined.

Lemma CopyCallbackFile_directory_failure_witness :
  exists s1,
    CopyCallbackFile (fp := Posix.filepath) "download" "path/to/file.bin" 2 5
      (progress_os progress_log [Some EIO])
    = ((None, None,
        Some (ErrMsg ("Error writing Git LFS download progress to "
                      ++ progress_log ++ ": input/output error"))),
       s1, [SysMkdirAll "/var/log/lfs" perm_0755])
    /\ disk s1 = disk (progress_os progress_log [Some EIO]).
Proof.
  exact (CopyCallbackFile_directory_failure (fp := Posix.filepath)
           "download" "path/to/file.bin" 2 5
           (progress_os progress_log [Some EIO]) EIO
           (proj1 download_is_configured)
           (proj1 (proj2 download_is_configured))
           (proj2 (proj2 download_is_configured))
           eq_refl eq_refl).
Defined.

Lemma CopyCallbackFile_open_failure_witness :
  exists s1,
    CopyCallbackFile (fp := Posix.filepath) "download" "path/to/file.bin" 2 5
      (progress_os progress_log [None; Some EIO])
    = ((None, None,
        Some (ErrMsg ("Error writing Git LFS download progress to "
                      ++ progress_log ++ ": input/output error"))),
       s1,
       [SysMkdirAll "/var/log/lfs" perm_0755;
        SysOpenFile progress_log append_flags perm_0666])
    /\ disk s1 = disk (progress_os progress_log [None; Some EIO]).
Proof.
  exact (CopyCallbackFile_open_failure (fp := Posix.filepath)
           "download" "path/to/file.bin" 2 5
           (progress_os progress_log [None; Some EIO]) EIO
           (proj1 download_is_configured)
           (proj1 (proj2 download_is_configured))
           (proj2 (proj2 download_is_configured))
           eq_refl eq_refl eq_refl).
Defined.

Lemma factory_callback_appends_to_configured_path_witness :
  exists c fo s1 t1 c2 s2,
    CopyCallbackFile (fp := Posix.filepath) "download" "path/to/file.bin" 2 5
      (progress_os progress_log [])
    = ((Some c, fo, None), s1, t1)
    /\ cb c 10240 4096 4096 s1
       = ((None, c2), s2,
          [SysWrite progress_log
             (progress_line "download" 2 5 4096 10240 "path/to/file.bin");
           SysSync progress_log])
    /\ disk s2 progress_log
       = "" ++ progress_line "download" 2 5 4096 10240 "path/to/file.bin"
    /\ prevWritten c2 = 4096.
Proof.
  do 4 eexists.
  assert (Hw : 4096 <> 0) by discriminate.
  destruct (factory_callback_appends_to_configured_path
              (fp := Posix.filepath) "download" "path/to/file.bin" 2 5
              (progress_os progress_log []) _ _ _ _ 10240 4096 4096
              eq_refl Hw eq_refl) as (c2 & s2 & H).
  exists c2, s2. split; [reflexivity|]. exact H.
Defined.

Lemma filter_ignores_pattern_order_witness :
  Permutation ["docs"; "src"] ["src"; "docs"]
  /\ Permutation ["src/generated"; "*.tmp"] ["*.tmp"; "src/generated"]
  /\ FilenamePassesIncludeExcludeFilter (fp := Posix.filepath)
       "src/generated/x.go" ["docs"; "src"] ["src/generated"; "*.tmp"]
     = FilenamePassesIncludeExcludeFilter (fp := Posix.filepath)
         "src/generated/x.go" ["src"; "docs"] ["*.tmp"; "src/generated"].
Proof.
  assert (H1 : Permutation ["docs"; "src"] ["src"; "docs"])
    by apply perm_swap.
  assert (H2 : Permutation ["src/generated"; "*.tmp"]
                 ["*.tmp"; "src/generated"]) by apply perm_swap.
  split; [exact H1|]. split; [exact H2|].
  exact (filter_ignores_pattern_order (fp := Posix.filepath)
           "src/generated/x.go" _ _ _ _ H1 H2).
Defined.

Lemma more_excludes_admit_no_more_witness :
  FilenamePassesIncludeExcludeFilter (fp := Posix.filepath)
    "src/main.go" ["src"] (["src/generated"] ++ ["*.tmp"]) = true
  /\ FilenamePassesIncludeExcludeFilter (fp := Posix.filepath)
       "src/main.go" ["src"] ["src/generated"] = true.
Proof.
  split; [reflexivity|].
  exact (more_excludes_admit_no_more (fp := Posix.filepath)
           "src/main.go" ["src"] ["src/generated"] ["*.tmp"] eq_refl).
Defined.

Lemma more_includes_reject_no_more_witness :
  ["src"] <> []
  /\ FilenamePassesIncludeExcludeFilter (fp := Posix.filepath)
       "src/main.go" ["src"] ["src/generated"] = true
  /\ FilenamePassesIncludeExcludeFilter (fp := Posix.filepath)
       "src/main.go" (["src"] ++ ["docs"]) ["src/generated"] = true.
Proof.
  assert (H1 : ["src"] <> []) by discriminate.
  split; [exact H1|]. split; [reflexivity|].
  exact (more_includes_reject_no_more (fp := Posix.filepath)
           "src/main.go" ["src"] ["src/generated"] ["docs"] H1 eq_refl).
Defined.

End OnMoreSamples.
